(** * Verification of the chat-transcript preprocessing pipeline

    Shallow embedding of [src/preprocess_chatlogs.py] (class
    [ProcessChatlogs]) and the properties of its specification.

    A Python [str] is modelled by [string]; each [ascii] stands for the code
    point of the same number, so the development covers transcripts over the
    code points 0..255.  The character classes below are the ones Python's
    [re] module uses for [str] patterns on that range. *)

From Stdlib Require Import String Ascii List Bool Arith Lia Permutation.
Import ListNotations.

Local Open Scope string_scope.
Local Open Scope list_scope.

(** ** Strings as Python uses them *)

Module Str.

(** [s[:n]] *)
Fixpoint take (n : nat) (s : string) : string :=
  match n, s with
  | S n', String a s' => String a (take n' s')
  | _, _ => EmptyString
  end.

(** [s.startswith(p)] *)
Fixpoint startswith (p s : string) : bool :=
  match p, s with
  | EmptyString, _ => true
  | String a p', String b s' => Ascii.eqb a b && startswith p' s'
  | String _ _, EmptyString => false
  end.

(** [sub in s] *)
Fixpoint contains (sub s : string) : bool :=
  startswith sub s ||
  match s with
  | EmptyString => false
  | String _ s' => contains sub s'
  end.

(** The scan of [s.replace(old, new)] for a non-empty [old]: [skip] counts
    the characters of an occurrence of [old] that are still to be passed
    over. *)
Fixpoint replace_scan (old new : string) (skip : nat) (s : string) : string :=
  match s with
  | EmptyString => EmptyString
  | String a s' =>
      match skip with
      | S k => replace_scan old new k s'
      | O =>
          if startswith old s
          then (new ++ replace_scan old new (String.length old - 1) s')%string
          else String a (replace_scan old new 0 s')
      end
  end.

(** [new.join] around every character, the result of replacing the empty
    string. *)
Fixpoint intersperse (new s : string) : string :=
  match s with
  | EmptyString => new
  | String a s' => (new ++ String a (intersperse new s'))%string
  end.

(** [s.replace(old, new)]: every non-overlapping occurrence, left to
    right. *)
Definition replace (old new s : string) : string :=
  match old with
  | EmptyString => intersperse new s
  | String _ _ => replace_scan old new 0 s
  end.

(** [c in s] for one character. *)
Fixpoint mem (c : ascii) (s : string) : bool :=
  match s with
  | EmptyString => false
  | String a s' => Ascii.eqb a c || mem c s'
  end.

Fixpoint all (p : ascii -> bool) (s : string) : bool :=
  match s with
  | EmptyString => true
  | String a s' => p a && all p s'
  end.

End Str.

(** ** The fragment of Python's [re] the four patterns use

    A backtracking matcher in continuation-passing style: alternatives are
    tried left to right, a greedy quantifier tries the longest repetition
    first, a lazy one the shortest, and the first complete match wins.  The
    quantifiers of the source only ever apply to a single character or
    character class, which is what [Rep] covers. *)

Module Re.

Definition between (lo hi : nat) (a : ascii) : bool :=
  Nat.leb lo (nat_of_ascii a) && Nat.leb (nat_of_ascii a) hi.

(** [\s]: [str.isspace] on 0..255. *)
Definition is_space (a : ascii) : bool :=
  between 9 13 a || between 28 32 a || between 133 133 a || between 160 160 a.

(** [\d] *)
Definition is_digit (a : ascii) : bool := between 48 57 a.

(** [\w]: [str.isalnum] or underscore, on 0..255. *)
Definition is_word (a : ascii) : bool :=
  is_digit a || between 65 90 a || between 97 122 a || between 95 95 a
  || between 170 170 a || between 178 179 a || between 181 181 a
  || between 185 186 a || between 188 190 a || between 192 214 a
  || between 216 246 a || between 248 255 a.

(** [.] without DOTALL: anything but a line feed. *)
Definition is_dot (a : ascii) : bool := negb (Ascii.eqb a "010"%char).

Inductive regex : Type :=
| Eps
| Chr (p : ascii -> bool)
| Rep (p : ascii -> bool) (lo : nat) (hi : option nat) (greedy : bool)
| Seq (r1 r2 : regex)
| Alt (r1 r2 : regex)
| Grp (n : nat) (r : regex)
| Eos.

(** A literal character, [x?] and concatenation of a list of pieces. *)
Definition ch (c : ascii) : regex := Chr (Ascii.eqb c).
Definition opt (p : ascii -> bool) : regex := Rep p 0 (Some 1) true.
Definition cat (rs : list regex) : regex := fold_right Seq Eps rs.

Fixpoint lit (s : string) : regex :=
  match s with
  | EmptyString => Eps
  | String a s' => Seq (ch a) (lit s')
  end.

(** Capture groups: group number to captured text, [None] while unset. *)
Definition caps : Type := nat -> option string.
Definition no_caps : caps := fun _ => None.
Definition set_group (n : nat) (v : string) (c : caps) : caps :=
  fun m => if Nat.eqb m n then Some v else c m.

(** What was read between input [s] and its suffix [s']. *)
Definition consumed (s s' : string) : string :=
  Str.take (String.length s - String.length s') s.

Definition can_take (hi : option nat) : bool :=
  match hi with Some O => false | _ => true end.

Definition stop {R : Type} (lo : nat) (k : string -> option R) (s : string)
  : option R :=
  match lo with O => k s | S _ => None end.

Fixpoint rep_greedy {R : Type} (p : ascii -> bool) (lo : nat) (hi : option nat)
    (s : string) (k : string -> option R) : option R :=
  match s with
  | String a s' =>
      if p a && can_take hi then
        match rep_greedy p (pred lo) (option_map pred hi) s' k with
        | Some x => Some x
        | None => stop lo k s
        end
      else stop lo k s
  | EmptyString => stop lo k s
  end.

Fixpoint rep_lazy {R : Type} (p : ascii -> bool) (lo : nat) (hi : option nat)
    (s : string) (k : string -> option R) : option R :=
  match stop lo k s with
  | Some x => Some x
  | None =>
      match s with
      | String a s' =>
          if p a && can_take hi
          then rep_lazy p (pred lo) (option_map pred hi) s' k
          else None
      | EmptyString => None
      end
  end.

(** [$] without MULTILINE: the end, or just before a final line feed. *)
Definition at_end (s : string) : bool :=
  match s with
  | EmptyString => true
  | String a EmptyString => Ascii.eqb a "010"%char
  | _ => false
  end.

Fixpoint exec {R : Type} (r : regex) (s : string) (c : caps)
    (k : string -> caps -> option R) : option R :=
  match r with
  | Eps => k s c
  | Chr p =>
      match s with
      | String a s' => if p a then k s' c else None
      | EmptyString => None
      end
  | Rep p lo hi true => rep_greedy p lo hi s (fun s' => k s' c)
  | Rep p lo hi false => rep_lazy p lo hi s (fun s' => k s' c)
  | Seq r1 r2 => exec r1 s c (fun s1 c1 => exec r2 s1 c1 k)
  | Alt r1 r2 =>
      match exec r1 s c k with
      | Some x => Some x
      | None => exec r2 s c k
      end
  | Grp n r1 => exec r1 s c (fun s' c' => k s' (set_group n (consumed s s') c'))
  | Eos => if at_end s then k s c else None
  end.

(** A match anchored at the start of [s]: the groups and the rest. *)
Definition match_here (r : regex) (s : string) : option (caps * string) :=
  exec r s no_caps (fun s' c' => Some (c', s')).

(** One found match: its text, its groups, and the input after it. *)
Record found : Type := Found { whole : string; groups : caps; rest : string }.

(** [re.search]: the leftmost position with a match. *)
Fixpoint search (r : regex) (s : string) : option found :=
  match match_here r s with
  | Some (c, s') => Some (Found (consumed s s') c s')
  | None =>
      match s with
      | EmptyString => None
      | String _ s' => search r s'
      end
  end.

(** The successive non-overlapping matches, each search resuming where the
    previous match ended.  None of the patterns of this program matches the
    empty string ([min_len] below), so every round reads at least one
    character and [S (length s)] rounds are never used up
    ([finditer_rounds_enough]). *)
Fixpoint finditer_rounds (n : nat) (r : regex) (s : string) : list found :=
  match n with
  | O => []
  | S n' =>
      match search r s with
      | None => []
      | Some f => f :: finditer_rounds n' r (rest f)
      end
  end.

Definition finditer (r : regex) (s : string) : list found :=
  finditer_rounds (S (String.length s)) r s.

(** Text of group [n] as [re.findall] reports it: the empty string for a
    group that took no part in the match. *)
Definition group (n : nat) (f : found) : string :=
  match groups f n with Some v => v | None => EmptyString end.

(** [re.findall] for a pattern without groups, with one group, and with
    two groups. *)
Definition findall0 (r : regex) (s : string) : list string :=
  map whole (finditer r s).
Definition findall1 (r : regex) (s : string) : list string :=
  map (group 1) (finditer r s).
Definition findall2 (r : regex) (s : string) : list (string * string) :=
  map (fun f => (group 1 f, group 2 f)) (finditer r s).

(** Least number of characters a match of [r] reads. *)
Fixpoint min_len (r : regex) : nat :=
  match r with
  | Eps | Eos => 0
  | Chr _ => 1
  | Rep _ lo _ _ => lo
  | Seq r1 r2 => min_len r1 + min_len r2
  | Alt r1 r2 => Nat.min (min_len r1) (min_len r2)
  | Grp _ r1 => min_len r1
  end.

End Re.

(** ** The patterns of [__post_init__] *)

Import Re.

(** [r'Agent\s(\w+)'] *)
Definition regex_agent_name : regex :=
  cat [lit "Agent"; Chr is_space; Grp 1 (Rep is_word 1 None true)].

(** [r'(.*?:\s)'] *)
Definition regex_client_name : regex :=
  Grp 1 (cat [Rep is_dot 0 None false; ch ":"; Chr is_space]).

(** [r'\(\s\d{0,2}m?\(?d{0,2}s?\s?\d{1,2}s\s\)'] *)
Definition regex_timestamps : regex :=
  cat [ch "("; Chr is_space; Rep is_digit 0 (Some 2) true;
       opt (Ascii.eqb "m"); opt (Ascii.eqb "(");
       Rep (Ascii.eqb "d") 0 (Some 2) true; opt (Ascii.eqb "s");
       opt is_space; Rep is_digit 1 (Some 2) true; ch "s"; Chr is_space;
       ch ")"].

(** [r'\d{0,2}s?\s?\d{1,2}s\s\)\s(.*?)\(\s|\s\)\s(.*$)'] *)
Definition regex_with_last_response : regex :=
  Alt (cat [Rep is_digit 0 (Some 2) true; opt (Ascii.eqb "s"); opt is_space;
            Rep is_digit 1 (Some 2) true; ch "s"; Chr is_space; ch ")";
            Chr is_space; Grp 1 (Rep is_dot 0 None false); ch "(";
            Chr is_space])
      (cat [Chr is_space; ch ")"; Chr is_space;
            Grp 2 (cat [Rep is_dot 0 None true; Eos])]).

(** ** Python values the class handles *)

(** The exceptions that can leave the methods of the class. *)
Inductive exn : Type :=
| IndexError   (* [[...][0]] on an empty list *)
| NameError    (* a local read before it is bound (UnboundLocalError) *)
| ValueError   (* unpacking a number of keys other than two *)
| KeyError.

Inductive result (A : Type) : Type :=
| Ok (a : A)
| Error (e : exn).
Arguments Ok {A} a.
Arguments Error {A} e.

(** [l[0]] *)
Definition item0 {A : Type} (l : list A) : result A :=
  match l with
  | x :: _ => Ok x
  | [] => Error IndexError
  end.

(** A [dict]: keys in insertion order, an assignment to a key that is
    present replaces the value where the key stands. *)
Module Dict.
Section Ops.
Context {K V : Type} (eqb : K -> K -> bool).

Fixpoint set (k : K) (v : V) (d : list (K * V)) : list (K * V) :=
  match d with
  | [] => [(k, v)]
  | (k', v') :: d' =>
      if eqb k' k then (k', v) :: d' else (k', v') :: set k v d'
  end.

Fixpoint get (k : K) (d : list (K * V)) : option V :=
  match d with
  | [] => None
  | (k', v') :: d' => if eqb k' k then Some v' else get k d'
  end.

Definition keys (d : list (K * V)) : list K := map fst d.

End Ops.
End Dict.

(** A turn: [(sentence_index, text, timestamp)]. *)
Definition Turn : Type := nat * string * string.
(** [sentence_dict]: speaker label to turns. *)
Definition DialogueMap : Type := list (string * list Turn).
(** [chat_dict]: transcript index to dialogue. *)
Definition Corpus : Type := list (nat * DialogueMap).

(** ** The four extraction methods *)

(** Lines 40-50: the first captured name, or the sentinel. *)
Definition apply_agent_regex (chatlog : string) : string :=
  match item0 (findall1 regex_agent_name chatlog) with
  | Ok agent_name => agent_name
  | Error _ => "No agent"
  end.

(** Lines 52-58, and the same expression at line 126. *)
Definition apply_client_regex (sentence : string) : result string :=
  item0 (findall1 regex_client_name sentence).

(** Lines 60-68. *)
Definition apply_timestamp_regex (chatlog : string) : list string :=
  findall0 regex_timestamps chatlog.

(** Lines 70-75. *)
Definition apply_chat_sentence_regex (chatlog : string) : list (string * string) :=
  findall2 regex_with_last_response chatlog.

(** ** Dialogue building (lines 99-143) *)

(** Lines 109-115: the slot of each span that is not empty; the two tests
    are independent, as in the source. *)
Fixpoint select_sentences (chat_sentences : list (string * string)) : list string :=
  match chat_sentences with
  | [] => []
  | sentence :: more =>
      (if String.eqb (fst sentence) "" then [snd sentence] else [])
      ++ (if String.eqb (snd sentence) "" then [fst sentence] else [])
      ++ select_sentences more
  end.

(** The local variables the loop of line 123 reads and writes.
    [actual_client_name] is [None] while the local is unbound. *)
Record Locals : Type := mkLocals {
  agent_name : string;
  agent_sentences : list Turn;
  client_sentences : list Turn;
  actual_client_name : option string
}.

(** The agent name the prefix test of line 134 uses, after lines 131-132. *)
Definition resolve_alias (client_name current : string) : string :=
  if String.eqb client_name "Klantenservice: " then "Klantenservice" else current.

(** The agent prefix [f"{agent_name}: "]. *)
Definition agent_prefix (name : string) : string := (name ++ ": ")%string.

(** Lines 125-139: one round of the loop. *)
Definition turn_step (v : Locals) (sentence_index : nat)
    (sentence timestamp : string) : result Locals :=
  match apply_client_regex sentence with
  | Error e => Error e
  | Ok client_name =>
      let name := resolve_alias client_name (agent_name v) in
      if Str.contains (agent_prefix name) sentence then
        Ok (mkLocals name
              (agent_sentences v ++
               [(sentence_index, Str.replace (agent_prefix name) "" sentence, timestamp)])
              (client_sentences v)
              (actual_client_name v))
      else
        Ok (mkLocals name
              (agent_sentences v)
              (client_sentences v ++
               [(sentence_index, Str.replace client_name "" sentence, timestamp)])
              (Some client_name))
  end.

(** Line 123: [enumerate(zip(sentences, time_stamps))]. *)
Fixpoint turn_loop (sentence_index : nat) (pairs : list (string * string))
    (v : Locals) : result Locals :=
  match pairs with
  | [] => Ok v
  | (sentence, timestamp) :: more =>
      match turn_step v sentence_index sentence timestamp with
      | Error e => Error e
      | Ok v' => turn_loop (S sentence_index) more v'
      end
  end.

(** The pairs line 123 walks through for a transcript. *)
Definition paired (chatlog : string) : list (string * string) :=
  combine (select_sentences (apply_chat_sentence_regex chatlog))
          (apply_timestamp_regex chatlog).

(** Lines 99-143 for one transcript with an agent: the dialogue and the
    value [actual_client_name] has afterwards.  [carried] is what the local
    [actual_client_name] holds on entry, left by an earlier transcript. *)
Definition build_dialogue (agent : string) (chatlog : string)
    (carried : option string) : result (DialogueMap * option string) :=
  match turn_loop 0 (paired chatlog) (mkLocals agent [] [] carried) with
  | Error e => Error e
  | Ok v =>
      let sentence_dict := Dict.set String.eqb (agent_name v) (agent_sentences v) [] in
      match actual_client_name v with
      | None => Error NameError
      | Some label =>
          Ok (Dict.set String.eqb label (client_sentences v) sentence_dict,
              Some label)
      end
  end.

(** ** The object and its methods *)

Record ProcessChatlogs : Type := mkPCL {
  chatlogs : list string;
  chat_dict : Corpus;
  agent_error_logs : list string;
  client_error_logs : list nat
}.

(** [ProcessChatlogs(chatlogs)] *)
Definition new_ProcessChatlogs (logs : list string) : ProcessChatlogs :=
  mkPCL logs [] [] [].

(** A method either returns or raises; both leave the object as the
    statements executed so far have made it. *)
Inductive outcome (A : Type) : Type :=
| Return (a : A) (self : ProcessChatlogs)
| Raise (e : exn) (self : ProcessChatlogs).
Arguments Return {A} a self.
Arguments Raise {A} e self.

Definition M (A : Type) : Type := ProcessChatlogs -> outcome A.

Definition ret {A : Type} (a : A) : M A := fun self => Return a self.
Definition raise {A : Type} (e : exn) : M A := fun self => Raise e self.
Definition bind {A B : Type} (m : M A) (f : A -> M B) : M B :=
  fun self =>
    match m self with
    | Return a self' => f a self'
    | Raise e self' => Raise e self'
    end.

Notation "x <- m ;; f" := (bind m (fun x => f))
  (at level 61, m at next level, right associativity).
Notation "m ;; f" := (bind m (fun _ => f))
  (at level 61, right associativity).

Definition get_self : M ProcessChatlogs := fun self => Return self self.

(** [self.agent_error_logs.append(chatlog)] *)
Definition log_agent_error (chatlog : string) : M unit :=
  fun self =>
    Return tt (mkPCL (chatlogs self) (chat_dict self)
                     (agent_error_logs self ++ [chatlog])
                     (client_error_logs self)).

(** [self.client_error_logs.append(key)] *)
Definition log_client_error (key : nat) : M unit :=
  fun self =>
    Return tt (mkPCL (chatlogs self) (chat_dict self)
                     (agent_error_logs self)
                     (client_error_logs self ++ [key])).

(** [self.chat_dict[chat_index] = sentence_dict] *)
Definition store_dialogue (chat_index : nat) (sentence_dict : DialogueMap) : M unit :=
  fun self =>
    Return tt (mkPCL (chatlogs self)
                     (Dict.set Nat.eqb chat_index sentence_dict (chat_dict self))
                     (agent_error_logs self)
                     (client_error_logs self)).

(** Lines 89-147: the loop over [enumerate(self.chatlogs)].  The local
    [actual_client_name] is bound inside the loop body only, so its value
    ([carried]) passes from one transcript to the next. *)
Fixpoint acquire_loop (chat_index : nat) (logs : list string)
    (carried : option string) : M unit :=
  match logs with
  | [] => ret tt
  | chatlog :: more =>
      let agent := apply_agent_regex chatlog in
      if String.eqb agent "No agent" then
        log_agent_error chatlog ;;
        acquire_loop (S chat_index) more carried
      else
        match build_dialogue agent chatlog carried with
        | Error e => raise e
        | Ok (sentence_dict, carried') =>
            store_dialogue chat_index sentence_dict ;;
            acquire_loop (S chat_index) more carried'
        end
  end.

(** Lines 85-149. *)
Definition acquire_dialogue : M Corpus :=
  self <- get_self ;;
  acquire_loop 0 (chatlogs self) None ;;
  self' <- get_self ;;
  ret (chat_dict self').

(** Lines 158-163. *)
Fixpoint client_check_loop (items : Corpus) : M unit :=
  match items with
  | [] => ret tt
  | (key, dialogue) :: more =>
      match Dict.keys dialogue with
      | [_; KLT] =>
          match Dict.get String.eqb KLT dialogue with
          | None => raise KeyError
          | Some turns =>
              (if Nat.eqb (List.length turns) 0 then log_client_error key else ret tt) ;;
              client_check_loop more
          end
      | _ => raise ValueError
      end
  end.

(** Lines 151-165. *)
Definition find_chatlogs_without_client : M (list nat) :=
  chat_dict' <- acquire_dialogue ;;
  client_check_loop chat_dict' ;;
  self <- get_self ;;
  ret (client_error_logs self).

(** [k not in client_errors] *)
Definition not_in (client_errors : list nat) (k : nat) : bool :=
  negb (existsb (Nat.eqb k) client_errors).

(** Lines 167-177. *)
Definition return_chatlogs : M Corpus :=
  client_errors <- find_chatlogs_without_client ;;
  self <- get_self ;;
  ret (filter (fun kv => not_in client_errors (fst kv)) (chat_dict self)).

(** ** Notions the properties are stated with *)

(** What it means for [r] to match between input [s] and its suffix [s'],
    taking the groups from [c] to [c'], irrespective of the order in which
    the matcher tries the possibilities. *)
Fixpoint matches (r : regex) (s : string) (c : caps) (s' : string) (c' : caps)
  : Prop :=
  match r with
  | Eps => s' = s /\ c' = c
  | Chr p => exists a, s = String a s' /\ p a = true /\ c' = c
  | Rep p lo hi _ =>
      exists w, s = (w ++ s')%string /\ Str.all p w = true
                /\ lo <= String.length w
                /\ match hi with Some h => String.length w <= h | None => True end
                /\ c' = c
  | Seq r1 r2 => exists s1 c1, matches r1 s c s1 c1 /\ matches r2 s1 c1 s' c'
  | Alt r1 r2 => matches r1 s c s' c' \/ matches r2 s c s' c'
  | Grp n r1 =>
      exists c1, matches r1 s c s' c1 /\ c' = set_group n (consumed s s') c1
  | Eos => s' = s /\ c' = c /\ at_end s = true
  end.

(** Whether [r] has a group numbered [n]. *)
Fixpoint has_group (n : nat) (r : regex) : bool :=
  match r with
  | Seq r1 r2 | Alt r1 r2 => has_group n r1 || has_group n r2
  | Grp m r1 => Nat.eqb m n || has_group n r1
  | _ => false
  end.

(** [t] is [s] or what remains of [s] after some characters. *)
Inductive suffix_of (t : string) : string -> Prop :=
| suffix_here : suffix_of t t
| suffix_later : forall a s, suffix_of t s -> suffix_of t (String a s).

(** A colon followed by a whitespace character occurs in [s]. *)
Fixpoint has_colon_space (s : string) : bool :=
  match s with
  | String a ((String b _) as s') =>
      (Ascii.eqb a ":" && is_space b) || has_colon_space s'
  | _ => false
  end.

(** Every pair is taken for an agent turn by the test of line 134, with the
    agent name as lines 131-132 have left it at that pair. *)
Fixpoint monologue (agent : string) (pairs : list (string * string)) : bool :=
  match pairs with
  | [] => true
  | (sentence, _) :: more =>
      match apply_client_regex sentence with
      | Error _ => false
      | Ok client_name =>
          let name := resolve_alias client_name agent in
          Str.contains (agent_prefix name) sentence && monologue name more
      end
  end.

(** The spans whose client-name prefix is the reserved service label. *)
Definition reserved_spans (pairs : list (string * string)) : list (string * string) :=
  filter (fun p => match apply_client_regex (fst p) with
                   | Ok client_name => String.eqb client_name "Klantenservice: "
                   | Error _ => false
                   end) pairs.

(** Turns of both speakers of a dialogue. *)
Definition total_turns (d : DialogueMap) : nat :=
  fold_right (fun kv n => List.length (snd kv) + n) 0 d.

(** The object as a method leaves it, returning or raising. *)
Definition final_state {A : Type} (o : outcome A) : ProcessChatlogs :=
  match o with
  | Return _ self => self
  | Raise _ self => self
  end.

(** [d[k] = v] for an entry [(k, v)]. *)
Definition assign {V : Type} (d : list (nat * V)) (e : nat * V) : list (nat * V) :=
  Dict.set Nat.eqb (fst e) (snd e) d.

(** The object after [entries] have been assigned to [chat_dict] in turn and
    [errs] appended to [agent_error_logs]. *)
Definition after_acquire (entries : Corpus) (errs : list string)
    (self : ProcessChatlogs) : ProcessChatlogs :=
  mkPCL (chatlogs self)
        (fold_left assign entries (chat_dict self))
        (agent_error_logs self ++ errs)
        (client_error_logs self).

(** The object after [keys] have been appended to [client_error_logs]. *)
Definition after_client_check (keys : list nat) (self : ProcessChatlogs)
  : ProcessChatlogs :=
  mkPCL (chatlogs self) (chat_dict self) (agent_error_logs self)
        (client_error_logs self ++ keys).

(** Keys in strictly increasing order, none below [i]. *)
Fixpoint ascending_from (i : nat) (keys : list nat) : Prop :=
  match keys with
  | [] => True
  | k :: more => i <= k /\ ascending_from (S k) more
  end.

(** A carried client label, when there is one, was recorded by line 139:
    it is what client-name extraction returned for some sentence. *)
Definition label_ok (carried : option string) : Prop :=
  forall label, carried = Some label ->
    exists sentence, apply_client_regex sentence = Ok label.

(** [v] occurs in [s]: [s] is some text, then [v], then some text. *)
Definition occurs (v s : string) : Prop :=
  exists pre post, s = (pre ++ v ++ post)%string.

(** The line feed, the one character [.] does not match. *)
Definition line_feed : ascii := "010"%char.

(** The ordinal index of a turn. *)
Definition turn_index (t : Turn) : nat := fst (fst t).

(** The test of line 95 on a transcript. *)
Definition agentless (chatlog : string) : bool :=
  String.eqb (apply_agent_regex chatlog) "No agent".

(** The test of lines 160-162 on a dialogue: it has two keys and the second
    holds no turn. *)
Definition client_empty (d : DialogueMap) : bool :=
  match Dict.keys d with
  | [_; KLT] =>
      match Dict.get String.eqb KLT d with
      | Some turns => Nat.eqb (List.length turns) 0
      | None => false
      end
  | _ => false
  end.

(** A span with nothing in either slot. *)
Definition both_empty (span : string * string) : bool :=
  String.eqb (fst span) "" && String.eqb (snd span) "".

(** [enumerate(logs)], counting from [i]. *)
Definition enumerate_from (i : nat) (logs : list string) : list (nat * string) :=
  combine (seq i (List.length logs)) logs.

(** The transcripts with an agent, each with its index. *)
Definition with_agent (i : nat) (logs : list string) : list (nat * string) :=
  filter (fun p => negb (agentless (snd p))) (enumerate_from i logs).

(** Every paired sentence has a colon followed by whitespace. *)
Definition well_prefixed (pairs : list (string * string)) : bool :=
  forallb (fun p => has_colon_space (fst p)) pairs.

(** A transcript whose processing binds no client label: it has no agent,
    or every pair of it is taken for an agent turn. *)
Definition records_nothing (chatlog : string) : bool :=
  agentless chatlog || monologue (apply_agent_regex chatlog) (paired chatlog).

(** [self.agent_error_logs.extend(skipped)] *)
Definition with_agent_errors (skipped : list string) (self : ProcessChatlogs)
  : ProcessChatlogs :=
  mkPCL (chatlogs self) (chat_dict self) (agent_error_logs self ++ skipped)
        (client_error_logs self).

(** * Properties *)

(** ** Strings *)

Lemma length_app (u v : string) :
  String.length (u ++ v)%string = String.length u + String.length v.
Proof. induction u as [|a u IH]; simpl; [reflexivity | now rewrite IH]. Qed.

Lemma take_app (u v : string) : Str.take (String.length u) (u ++ v)%string = u.
Proof. induction u as [|a u IH]; simpl; [now destruct v | now rewrite IH]. Qed.

Lemma consumed_app (u v : string) : consumed (u ++ v)%string v = u.
Proof.
  unfold consumed. rewrite length_app.
  replace (String.length u + String.length v - String.length v)
    with (String.length u) by lia.
  apply take_app.
Qed.

Lemma consumed_refl (s : string) : consumed s s = EmptyString.
Proof. exact (consumed_app EmptyString s). Qed.

Lemma app_assoc_str (u v w : string) :
  ((u ++ v) ++ w)%string = (u ++ (v ++ w))%string.
Proof. induction u as [|a u IH]; simpl; [reflexivity | now rewrite IH]. Qed.

Lemma mem_app (c : ascii) (u v : string) :
  Str.mem c (u ++ v)%string = Str.mem c u || Str.mem c v.
Proof.
  induction u as [|a u IH]; simpl; [reflexivity|].
  now rewrite IH, orb_assoc.
Qed.

Lemma all_app (p : ascii -> bool) (u v : string) :
  Str.all p (u ++ v)%string = Str.all p u && Str.all p v.
Proof.
  induction u as [|a u IH]; simpl; [reflexivity|].
  now rewrite IH, andb_assoc.
Qed.

Lemma all_not_mem (p : ascii -> bool) (c : ascii) (s : string) :
  p c = false -> Str.all p s = true -> Str.mem c s = false.
Proof.
  intros Hc. induction s as [|a s IH]; simpl; [reflexivity|].
  intros H. apply andb_true_iff in H as [Ha Hs].
  rewrite (IH Hs), orb_false_r.
  destruct (Ascii.eqb a c) eqn:E; [|reflexivity].
  apply Ascii.eqb_eq in E. congruence.
Qed.

Lemma suffix_of_length (t s : string) :
  suffix_of t s -> String.length t <= String.length s.
Proof. induction 1; simpl; lia. Qed.

Lemma suffix_of_trans (a b c : string) :
  suffix_of a b -> suffix_of b c -> suffix_of a c.
Proof. intros Hab Hbc. induction Hbc; [assumption | now constructor]. Qed.

Lemma suffix_of_app (u v : string) : suffix_of v (u ++ v)%string.
Proof. induction u; simpl; now constructor. Qed.

(** ** The matcher finds only matches *)

Section Soundness.

Context {R : Type}.

Lemma rep_greedy_sound (p : ascii -> bool) (s : string) :
  forall lo hi (k : string -> option R) x,
    rep_greedy p lo hi s k = Some x ->
    exists w s', s = (w ++ s')%string /\ Str.all p w = true
                 /\ lo <= String.length w
                 /\ match hi with Some h => String.length w <= h | None => True end
                 /\ k s' = Some x.
Proof.
  induction s as [|a s IH]; intros lo hi k x H; simpl in H.
  - destruct lo; simpl in H; [|discriminate].
    exists EmptyString, EmptyString. repeat split; auto.
    destruct hi; simpl; auto; lia.
  - assert (Hstop : stop lo k (String a s) = Some x ->
              exists w s', String a s = (w ++ s')%string /\ Str.all p w = true
                 /\ lo <= String.length w
                 /\ match hi with Some h => String.length w <= h | None => True end
                 /\ k s' = Some x).
    { intros Hs. destruct lo; simpl in Hs; [|discriminate].
      exists EmptyString, (String a s). repeat split; auto.
      destruct hi; simpl; auto; lia. }
    destruct (p a && can_take hi) eqn:E; [|auto].
    destruct (rep_greedy p (pred lo) (option_map pred hi) s k) eqn:G; [|auto].
    inversion H; subst r.
    apply andb_true_iff in E as [Hp Hc].
    destruct (IH _ _ _ _ G) as (w & s' & Hs & Hw & Hlo & Hhi & Hk).
    exists (String a w), s'. simpl. rewrite Hp, Hw, Hs.
    repeat split; auto; [lia|].
    destruct hi as [[|h]|]; simpl in *; auto; [discriminate | lia].
Qed.

Lemma rep_lazy_sound (p : ascii -> bool) (s : string) :
  forall lo hi (k : string -> option R) x,
    rep_lazy p lo hi s k = Some x ->
    exists w s', s = (w ++ s')%string /\ Str.all p w = true
                 /\ lo <= String.length w
                 /\ match hi with Some h => String.length w <= h | None => True end
                 /\ k s' = Some x.
Proof.
  induction s as [|a s IH]; intros lo hi k x H.
  - simpl in H. destruct lo; simpl in H; [|discriminate].
    destruct (k EmptyString) eqn:K; [|discriminate].
    inversion H; subst r.
    exists EmptyString, EmptyString. repeat split; auto.
    destruct hi; simpl; auto; lia.
  - simpl in H. destruct (stop lo k (String a s)) eqn:St.
    + inversion H; subst r. destruct lo; simpl in St; [|discriminate].
      exists EmptyString, (String a s). repeat split; auto.
      destruct hi; simpl; auto; lia.
    + destruct (p a && can_take hi) eqn:E; [|discriminate].
      apply andb_true_iff in E as [Hp Hc].
      destruct (IH _ _ _ _ H) as (w & s' & Hs & Hw & Hlo & Hhi & Hk).
      exists (String a w), s'. simpl. rewrite Hp, Hw, Hs.
      repeat split; auto; [lia|].
      destruct hi as [[|h]|]; simpl in *; auto; [discriminate | lia].
Qed.

Lemma exec_sound (r : regex) :
  forall s c (k : string -> caps -> option R) x,
    exec r s c k = Some x ->
    exists s' c', matches r s c s' c' /\ k s' c' = Some x.
Proof.
  induction r as [|p|p lo hi g|r1 IH1 r2 IH2|r1 IH1 r2 IH2|n r1 IH1|];
    intros s c k x H; simpl in H.
  - exists s, c. simpl. auto.
  - destruct s as [|a s]; [discriminate|].
    destruct (p a) eqn:Hp; [|discriminate].
    exists s, c. simpl. eauto.
  - assert (Hrep : exists w s', s = (w ++ s')%string /\ Str.all p w = true
                 /\ lo <= String.length w
                 /\ match hi with Some h => String.length w <= h | None => True end
                 /\ k s' c = Some x).
    { destruct g; [apply rep_greedy_sound in H | apply rep_lazy_sound in H];
        exact H. }
    destruct Hrep as (w & s' & Hs & Hw & Hlo & Hhi & Hk).
    exists s', c. split; [|assumption]. simpl. exists w. auto.
  - apply IH1 in H as (s1 & c1 & M1 & H).
    apply IH2 in H as (s2 & c2 & M2 & H).
    exists s2, c2. split; [|assumption]. simpl. eauto.
  - destruct (exec r1 s c k) eqn:E1.
    + inversion H; subst r. apply IH1 in E1 as (s' & c' & M1 & Hk).
      exists s', c'. simpl. auto.
    + apply IH2 in H as (s' & c' & M2 & Hk).
      exists s', c'. simpl. auto.
  - apply IH1 in H as (s' & c' & M1 & Hk).
    exists s', (set_group n (consumed s s') c'). simpl. eauto.
  - destruct (at_end s) eqn:E; [|discriminate].
    exists s, c. simpl. auto.
Qed.

End Soundness.

Lemma match_here_sound (r : regex) (s : string) (c : caps) (s' : string) :
  match_here r s = Some (c, s') -> matches r s no_caps s' c.
Proof.
  unfold match_here. intros H.
  apply exec_sound in H as (s1 & c1 & Hm & Hk).
  now inversion Hk; subst.
Qed.

(** A match reads a prefix of its input, of at least [min_len] characters. *)
Lemma matches_reads (r : regex) :
  forall s c s' c',
    matches r s c s' c' ->
    exists w, s = (w ++ s')%string /\ min_len r <= String.length w.
Proof.
  induction r as [|p|p lo hi g|r1 IH1 r2 IH2|r1 IH1 r2 IH2|n r1 IH1|];
    simpl; intros s c s' c' H.
  - destruct H as [-> _]. exists EmptyString. auto.
  - destruct H as (a & -> & _). exists (String a EmptyString). auto.
  - destruct H as (w & -> & _ & Hlo & _). exists w. auto.
  - destruct H as (s1 & c1 & H1 & H2).
    apply IH1 in H1 as (w1 & -> & L1). apply IH2 in H2 as (w2 & -> & L2).
    exists (w1 ++ w2)%string. rewrite app_assoc_str, length_app. split; [reflexivity | lia].
  - destruct H as [H|H]; [apply IH1 in H | apply IH2 in H];
      destruct H as (w & -> & L); exists w; split; auto; lia.
  - destruct H as (c1 & H & _). eauto.
  - destruct H as (-> & _). exists EmptyString. auto.
Qed.

(** Groups the pattern does not have keep their value. *)
Lemma matches_frame (n : nat) (r : regex) :
  forall s c s' c',
    has_group n r = false -> matches r s c s' c' -> c' n = c n.
Proof.
  induction r as [|p|p lo hi g|r1 IH1 r2 IH2|r1 IH1 r2 IH2|m r1 IH1|];
    simpl; intros s c s' c' G H.
  - now destruct H as [_ ->].
  - now destruct H as (a & _ & _ & ->).
  - now destruct H as (w & _ & _ & _ & _ & ->).
  - apply orb_false_iff in G as [G1 G2].
    destruct H as (s1 & c1 & H1 & H2).
    rewrite (IH2 _ _ _ _ G2 H2). eapply IH1; eauto.
  - apply orb_false_iff in G as [G1 G2].
    destruct H as [H|H]; eauto.
  - apply orb_false_iff in G as [G1 G2].
    destruct H as (c1 & H & ->). unfold set_group.
    rewrite Nat.eqb_sym, G1. eapply IH1; eauto.
  - now destruct H as (_ & -> & _).
Qed.

(** ** Searching *)

Lemma search_sound (r : regex) (s : string) (f : found) :
  search r s = Some f ->
  exists t, suffix_of t s /\ matches r t no_caps (rest f) (groups f)
            /\ whole f = consumed t (rest f).
Proof.
  induction s as [|a s IH]; simpl; intros H.
  - destruct (match_here r EmptyString) as [[c s']|] eqn:E; [|discriminate].
    inversion H; subst f; simpl. exists EmptyString.
    split; [constructor|]. split; [now apply match_here_sound | reflexivity].
  - destruct (match_here r (String a s)) as [[c s']|] eqn:E.
    + inversion H; subst f; simpl. exists (String a s).
      split; [constructor|]. split; [now apply match_here_sound | reflexivity].
    + destruct (IH H) as (t & Ht & Hm). exists t. split; [now constructor | exact Hm].
Qed.

Lemma search_rest_shorter (r : regex) (s : string) (f : found) :
  0 < min_len r -> search r s = Some f ->
  String.length (rest f) < String.length s.
Proof.
  intros Hr H. apply search_sound in H as (t & Ht & Hm & _).
  apply matches_reads in Hm as (w & -> & Hw).
  apply suffix_of_length in Ht. rewrite length_app in Ht. lia.
Qed.

(** The rounds [finditer] allows are never used up. *)
Lemma finditer_rounds_enough (r : regex) :
  0 < min_len r ->
  forall n m s, String.length s < n -> String.length s < m ->
    finditer_rounds n r s = finditer_rounds m r s.
Proof.
  intros Hr. induction n as [|n IH]; intros m s Hn Hm; [lia|].
  destruct m as [|m]; [lia|]. simpl.
  destruct (search r s) as [f|] eqn:E; [|reflexivity].
  pose proof (search_rest_shorter r s f Hr E).
  f_equal. apply IH; lia.
Qed.

(** [finditer] is the first match followed by the matches of the rest. *)
Lemma finditer_unfold (r : regex) (s : string) :
  0 < min_len r ->
  finditer r s =
  match search r s with
  | None => []
  | Some f => f :: finditer r (rest f)
  end.
Proof.
  intros Hr. unfold finditer at 1. cbn [finditer_rounds].
  destruct (search r s) as [f|] eqn:E; [|reflexivity].
  pose proof (search_rest_shorter r s f Hr E).
  f_equal. unfold finditer. apply finditer_rounds_enough; auto; lia.
Qed.

Lemma finditer_rounds_sound (r : regex) (f : found) :
  forall n s, In f (finditer_rounds n r s) ->
    exists t, matches r t no_caps (rest f) (groups f)
              /\ whole f = consumed t (rest f).
Proof.
  induction n as [|n IH]; simpl; intros s H; [contradiction|].
  destruct (search r s) as [g|] eqn:E; [|contradiction].
  destruct H as [->|H]; [|eauto].
  apply search_sound in E as (t & _ & Hm). eauto.
Qed.

Lemma finditer_sound (r : regex) (s : string) (f : found) :
  In f (finditer r s) ->
  exists t, matches r t no_caps (rest f) (groups f)
            /\ whole f = consumed t (rest f).
Proof. apply finditer_rounds_sound. Qed.

Lemma finditer_head (r : regex) (s : string) (f : found) (fs : list found) :
  finditer r s = f :: fs -> search r s = Some f.
Proof.
  unfold finditer. simpl. destruct (search r s); [|discriminate].
  now inversion 1.
Qed.

Lemma finditer_nil (r : regex) (s : string) :
  search r s = None -> finditer r s = [].
Proof. unfold finditer. simpl. now intros ->. Qed.

(** ** What the patterns capture *)

(** The agent name the pattern captures is a non-empty run of word
    characters. *)
Lemma agent_capture (s : string) (f : found) :
  search regex_agent_name s = Some f ->
  exists v, groups f 1 = Some v /\ v <> EmptyString /\ Str.all is_word v = true.
Proof.
  intros H. apply search_sound in H as (t & _ & Hm & _).
  unfold regex_agent_name in Hm. cbn [cat fold_right matches] in Hm.
  destruct Hm as (s1 & c1 & _ & s2 & c2 & _ & s3 & c3 & Hg & _ & ->).
  destruct Hg as (c4 & (w & -> & Hw & Hlen & _ & _) & ->).
  exists w. rewrite consumed_app. unfold set_group. simpl.
  repeat split; auto. intros ->. simpl in Hlen. lia.
Qed.

Lemma has_colon_space_cons (a : ascii) (s : string) :
  has_colon_space s = true -> has_colon_space (String a s) = true.
Proof.
  intros H. destruct s as [|b s]; [discriminate|].
  change (has_colon_space (String a (String b s)))
    with ((Ascii.eqb a ":" && is_space b) || has_colon_space (String b s)).
  now rewrite H, orb_true_r.
Qed.

Lemma has_colon_space_suffix (t s : string) :
  suffix_of t s -> has_colon_space t = true -> has_colon_space s = true.
Proof. induction 1; auto using has_colon_space_cons. Qed.

(** The client prefix the pattern captures ends in a colon and a whitespace
    character, and only a text with such a pair has one. *)
Lemma client_capture (s : string) (f : found) :
  search regex_client_name s = Some f ->
  has_colon_space s = true
  /\ exists v, groups f 1 = Some v /\ Str.mem ":" v = true.
Proof.
  intros H. apply search_sound in H as (t & Ht & Hm & _).
  unfold regex_client_name in Hm. cbn [cat fold_right matches ch] in Hm.
  destruct Hm as (c1 & Hm & ->).
  destruct Hm as (s1 & c2 & (w & -> & _) & s2 & c3 & (a & -> & Ha & _)
                  & s3 & c4 & (b & -> & Hb & _) & Hrest & _).
  apply Ascii.eqb_eq in Ha. subst a. rewrite Hrest.
  split.
  - apply (has_colon_space_suffix _ _ Ht).
    apply (has_colon_space_suffix (String ":" (String b s3)) _ (suffix_of_app w _)).
    simpl. now rewrite Hb.
  - exists (w ++ String ":" (String b EmptyString))%string. split.
    + unfold set_group. simpl. f_equal.
      replace (w ++ String ":" (String b s3))%string
        with ((w ++ String ":" (String b EmptyString)) ++ s3)%string
        by (now rewrite app_assoc_str).
      apply consumed_app.
    + rewrite mem_app. simpl. apply orb_true_r.
Qed.

(** Conversely a text with a colon followed by whitespace has a prefix. *)
Lemma client_search_complete (s : string) :
  has_colon_space s = true -> search regex_client_name s <> None.
Proof.
  induction s as [|a s IH]; [discriminate|].
  intros H. cbn [search].
  destruct (match_here regex_client_name (String a s)) as [[c s']|] eqn:E;
    [discriminate|].
  apply IH. destruct s as [|b s]; [discriminate|].
  change (has_colon_space (String a (String b s)))
    with ((Ascii.eqb a ":" && is_space b) || has_colon_space (String b s)) in H.
  apply orb_true_iff in H as [H|H]; [|exact H].
  apply andb_true_iff in H as [Ha Hb]. exfalso.
  apply Ascii.eqb_eq in Ha. subst a.
  unfold match_here, regex_client_name in E. simpl in E.
  rewrite Hb in E. discriminate.
Qed.

(** The two groups of the span pattern stand in different alternatives, so
    a match never fills both. *)
Lemma span_capture (s : string) (f : found) :
  In f (finditer regex_with_last_response s) ->
  groups f 1 = None \/ groups f 2 = None.
Proof.
  intros H. apply finditer_sound in H as (t & Hm & _).
  unfold regex_with_last_response in Hm. cbn [matches] in Hm.
  destruct Hm as [Hm|Hm].
  - right. now apply (matches_frame 2) in Hm.
  - left. now apply (matches_frame 1) in Hm.
Qed.

Lemma min_len_agent : 0 < min_len regex_agent_name.
Proof. simpl. lia. Qed.
Lemma min_len_client : 0 < min_len regex_client_name.
Proof. simpl. lia. Qed.
Lemma min_len_timestamps : 0 < min_len regex_timestamps.
Proof. simpl. lia. Qed.
Lemma min_len_spans : 0 < min_len regex_with_last_response.
Proof. simpl. lia. Qed.

(** ** The extraction methods *)

Lemma apply_client_regex_error (sentence : string) (e : exn) :
  apply_client_regex sentence = Error e -> e = IndexError.
Proof.
  unfold apply_client_regex, item0.
  destruct (findall1 regex_client_name sentence); now inversion 1.
Qed.

(** Client-name extraction fails exactly on the spans without a colon
    followed by whitespace. *)
Lemma apply_client_regex_fails_iff (sentence : string) :
  apply_client_regex sentence = Error IndexError
  <-> has_colon_space sentence = false.
Proof.
  unfold apply_client_regex, findall1. split.
  - intros H. destruct (has_colon_space sentence) eqn:E; [|reflexivity].
    apply client_search_complete in E.
    destruct (search regex_client_name sentence) as [f|] eqn:S; [|congruence].
    rewrite (finditer_unfold _ _ min_len_client), S in H. discriminate.
  - intros H.
    destruct (search regex_client_name sentence) as [f|] eqn:S.
    + apply client_capture in S as [S _]. congruence.
    + now rewrite (finditer_nil _ _ S).
Qed.

(** The label client-name extraction returns holds a colon. *)
Lemma apply_client_regex_colon (sentence client_name : string) :
  apply_client_regex sentence = Ok client_name ->
  Str.mem ":" client_name = true.
Proof.
  unfold apply_client_regex, findall1.
  destruct (finditer regex_client_name sentence) as [|f fs] eqn:E;
    [discriminate|].
  apply finditer_head in E. apply client_capture in E as (_ & v & Hv & Hm).
  simpl. unfold group. rewrite Hv. intros H. inversion H. now subst.
Qed.

(** The agent name agent extraction returns, when it is not the sentinel,
    holds no colon. *)
Lemma apply_agent_regex_no_colon (chatlog : string) :
  apply_agent_regex chatlog <> "No agent" ->
  Str.mem ":" (apply_agent_regex chatlog) = false.
Proof.
  unfold apply_agent_regex, findall1.
  destruct (finditer regex_agent_name chatlog) as [|f fs] eqn:E; simpl;
    [congruence|].
  intros _. apply finditer_head in E. apply agent_capture in E as (v & Hv & _ & Hw).
  unfold group. rewrite Hv. now apply (all_not_mem is_word).
Qed.

(** The sentinel is returned only when the pattern finds nothing: a
    captured name holds no blank. *)
Lemma apply_agent_regex_sentinel (chatlog : string) :
  apply_agent_regex chatlog = "No agent"
  <-> findall1 regex_agent_name chatlog = [].
Proof.
  unfold apply_agent_regex, findall1. split.
  - destruct (finditer regex_agent_name chatlog) as [|f fs] eqn:E; simpl;
      [reflexivity|].
    apply finditer_head in E. apply agent_capture in E as (v & Hv & _ & Hw).
    unfold group. rewrite Hv. intros ->. discriminate.
  - destruct (finditer regex_agent_name chatlog); simpl; [reflexivity|discriminate].
Qed.

(** Every span the extractor returns has an empty slot. *)
Lemma apply_chat_sentence_regex_slots (chatlog : string) (span : string * string) :
  In span (apply_chat_sentence_regex chatlog) ->
  fst span = EmptyString \/ snd span = EmptyString.
Proof.
  unfold apply_chat_sentence_regex, findall2. intros H.
  apply in_map_iff in H as (f & <- & Hf). apply span_capture in Hf.
  unfold group. simpl. destruct Hf as [-> | ->]; auto.
Qed.

(** ** Dictionaries *)

Lemma dict_set_in {V : Type} (k k' : nat) (v v' : V) (d : list (nat * V)) :
  In (k', v') (Dict.set Nat.eqb k v d) -> (k', v') = (k, v) \/ In (k', v') d.
Proof.
  induction d as [|[k0 v0] d IH]; simpl.
  - intros [H|[]]. left. now symmetry.
  - destruct (Nat.eqb k0 k) eqn:E; simpl.
    + apply Nat.eqb_eq in E. subst k0. intros [H|H]; auto.
    + intros [H|H]; auto. destruct (IH H); auto.
Qed.

Lemma dict_set_keys {V : Type} (k k' : nat) (v : V) (d : list (nat * V)) :
  In k' (Dict.keys (Dict.set Nat.eqb k v d)) -> k' = k \/ In k' (Dict.keys d).
Proof.
  unfold Dict.keys. induction d as [|[k0 v0] d IH]; simpl.
  - intros [H|[]]. now left.
  - destruct (Nat.eqb k0 k) eqn:E; simpl.
    + intros [H|H]; auto.
    + intros [H|H]; auto. destruct (IH H); auto.
Qed.

Lemma dict_get_set_same {V : Type} (k : nat) (v : V) (d : list (nat * V)) :
  Dict.get Nat.eqb k (Dict.set Nat.eqb k v d) = Some v.
Proof.
  induction d as [|[k0 v0] d IH]; simpl.
  - now rewrite Nat.eqb_refl.
  - destruct (Nat.eqb k0 k) eqn:E; simpl; now rewrite E.
Qed.

Lemma dict_get_set_other {V : Type} (k k' : nat) (v : V) (d : list (nat * V)) :
  k' <> k ->
  Dict.get Nat.eqb k' (Dict.set Nat.eqb k v d) = Dict.get Nat.eqb k' d.
Proof.
  intros Hne. induction d as [|[k0 v0] d IH]; simpl.
  - apply Nat.eqb_neq in Hne. now rewrite Nat.eqb_sym, Hne.
  - destruct (Nat.eqb k0 k) eqn:E; simpl.
    + apply Nat.eqb_eq in E. subst k0.
      apply Nat.eqb_neq in Hne. now rewrite Nat.eqb_sym, Hne.
    + now rewrite IH.
Qed.

(** Assigning the value a key already has changes nothing. *)
Lemma dict_set_same {V : Type} (k : nat) (v : V) (d : list (nat * V)) :
  Dict.get Nat.eqb k d = Some v -> Dict.set Nat.eqb k v d = d.
Proof.
  induction d as [|[k0 v0] d IH]; simpl; [discriminate|].
  destruct (Nat.eqb k0 k) eqn:E.
  - now inversion 1.
  - intros H. now rewrite IH.
Qed.

Lemma ascending_from_lower (i : nat) (keys : list nat) :
  ascending_from i keys -> forall k, In k keys -> i <= k.
Proof.
  revert i. induction keys as [|k0 keys IH]; simpl; intros i H k Hk;
    [contradiction|].
  destruct H as [H0 H1]. destruct Hk as [<-|Hk]; [assumption|].
  apply (IH _ H1) in Hk. lia.
Qed.

Lemma ascending_from_weaken (i j : nat) (keys : list nat) :
  j <= i -> ascending_from i keys -> ascending_from j keys.
Proof. destruct keys; simpl; [auto|]. intros ? [? ?]. split; [lia|assumption]. Qed.

Section FoldSet.

Context {V : Type}.

Lemma fold_set_in (entries d : list (nat * V)) (k : nat) (v : V) :
  In (k, v) (fold_left assign entries d) -> In (k, v) d \/ In (k, v) entries.
Proof.
  revert d. induction entries as [|[k0 v0] es IH]; unfold assign at 1; simpl; intros d H; [auto|].
  apply IH in H as [H|H]; [|auto].
  apply dict_set_in in H as [H|H]; auto.
Qed.

Lemma fold_set_keys (entries d : list (nat * V)) (k : nat) :
  In k (Dict.keys (fold_left assign entries d)) ->
  In k (Dict.keys d) \/ In k (map fst entries).
Proof.
  revert d. induction entries as [|[k0 v0] es IH]; unfold assign at 1; simpl; intros d H; [auto|].
  apply IH in H as [H|H]; [|auto].
  apply dict_set_keys in H as [H|H]; auto.
Qed.

Lemma fold_set_get_other (entries d : list (nat * V)) (k : nat) :
  ~ In k (map fst entries) ->
  Dict.get Nat.eqb k (fold_left assign entries d) = Dict.get Nat.eqb k d.
Proof.
  revert d. induction entries as [|[k0 v0] es IH]; unfold assign at 1; simpl; intros d H;
    [reflexivity|].
  rewrite IH by tauto. apply dict_get_set_other. intros ->. tauto.
Qed.

Lemma fold_set_get (entries : list (nat * V)) :
  forall i d k v,
    ascending_from i (map fst entries) -> In (k, v) entries ->
    Dict.get Nat.eqb k (fold_left assign entries d) = Some v.
Proof.
  induction entries as [|[k0 v0] es IH]; unfold assign at 1; simpl; intros i d k v Hasc Hin;
    [contradiction|].
  destruct Hasc as [H0 Hasc]. destruct Hin as [Heq|Hin].
  - inversion Heq; subst k0 v0. rewrite fold_set_get_other.
    + apply dict_get_set_same.
    + intros Hk. apply (ascending_from_lower _ _ Hasc) in Hk. lia.
  - eapply IH; eauto.
Qed.

Lemma fold_set_fixed (entries d : list (nat * V)) :
  (forall k v, In (k, v) entries -> Dict.get Nat.eqb k d = Some v) ->
  fold_left assign entries d = d.
Proof.
  induction entries as [|[k0 v0] es IH]; unfold assign at 1; simpl; intros H; [reflexivity|].
  rewrite dict_set_same by auto. apply IH. auto.
Qed.

(** Assigning the same entries a second time changes nothing. *)
Lemma fold_set_twice (entries d : list (nat * V)) (i : nat) :
  ascending_from i (map fst entries) ->
  fold_left assign entries (fold_left assign entries d)
  = fold_left assign entries d.
Proof.
  intros Hasc. apply fold_set_fixed. intros k v Hin.
  eapply fold_set_get; eauto.
Qed.

End FoldSet.

(** ** The loop over the pairs of a transcript *)

Lemma resolve_alias_cases (client_name current : string) :
  (client_name = "Klantenservice: "
   /\ resolve_alias client_name current = "Klantenservice")
  \/ (client_name <> "Klantenservice: "
      /\ resolve_alias client_name current = current).
Proof.
  unfold resolve_alias.
  destruct (String.eqb client_name "Klantenservice: ") eqn:E.
  - apply String.eqb_eq in E. auto.
  - apply String.eqb_neq in E. auto.
Qed.

Lemma resolve_alias_reserved (client_name : string) :
  resolve_alias client_name "Klantenservice" = "Klantenservice".
Proof. destruct (resolve_alias_cases client_name "Klantenservice") as [[_ H]|[_ H]]; exact H. Qed.

(** The ways one round can end. *)
Lemma turn_step_cases (v : Locals) (i : nat) (sentence timestamp : string) :
  (apply_client_regex sentence = Error IndexError
   /\ turn_step v i sentence timestamp = Error IndexError)
  \/ exists client_name,
       apply_client_regex sentence = Ok client_name
       /\ let name := resolve_alias client_name (agent_name v) in
          (Str.contains (agent_prefix name) sentence = true
           /\ turn_step v i sentence timestamp =
              Ok (mkLocals name
                    (agent_sentences v ++
                     [(i, Str.replace (agent_prefix name) "" sentence, timestamp)])
                    (client_sentences v) (actual_client_name v)))
          \/ (Str.contains (agent_prefix name) sentence = false
              /\ turn_step v i sentence timestamp =
                 Ok (mkLocals name (agent_sentences v)
                       (client_sentences v ++
                        [(i, Str.replace client_name "" sentence, timestamp)])
                       (Some client_name))).
Proof.
  unfold turn_step.
  destruct (apply_client_regex sentence) as [client_name|e] eqn:E.
  - right. exists client_name. split; [reflexivity|]. cbv zeta.
    destruct (Str.contains _ sentence); auto.
  - left. apply apply_client_regex_error in E as ->. auto.
Qed.

Lemma turn_loop_app (l1 l2 : list (string * string)) :
  forall i v,
    turn_loop i (l1 ++ l2) v =
    match turn_loop i l1 v with
    | Ok v1 => turn_loop (i + List.length l1) l2 v1
    | Error e => Error e
    end.
Proof.
  induction l1 as [|[s t] l1 IH]; simpl; intros i v.
  - now rewrite Nat.add_0_r.
  - destruct (turn_step v i s t) as [v'|e]; [|reflexivity].
    rewrite IH. now rewrite Nat.add_succ_r.
Qed.

(** The loop raises nothing but [IndexError]. *)
Lemma turn_loop_error (pairs : list (string * string)) :
  forall i v e, turn_loop i pairs v = Error e -> e = IndexError.
Proof.
  induction pairs as [|[s t] more IH]; simpl; intros i v e H; [discriminate|].
  destruct (turn_step_cases v i s t) as [[_ E]|(cn & _ & [[_ E]|[_ E]])];
    rewrite E in H; eauto; now inversion H.
Qed.

(** What the loop keeps true of its variables: each pair adds one turn, the
    agent name holds no colon and the client label is a recorded one. *)
Lemma turn_loop_invariant (pairs : list (string * string)) :
  forall i v v',
    turn_loop i pairs v = Ok v' ->
    (List.length (agent_sentences v') + List.length (client_sentences v')
     = List.length (agent_sentences v) + List.length (client_sentences v)
       + List.length pairs)
    /\ (Str.mem ":" (agent_name v) = false -> Str.mem ":" (agent_name v') = false)
    /\ (label_ok (actual_client_name v) -> label_ok (actual_client_name v')).
Proof.
  induction pairs as [|[s t] more IH]; simpl; intros i v v' H.
  - inversion H; subst v'. repeat split; auto; lia.
  - destruct (turn_step_cases v i s t) as [[_ E]|(cn & Hcn & [[_ E]|[_ E]])];
      rewrite E in H; [discriminate| |];
      apply IH in H as (Hlen & Hname & Hlabel); simpl in *;
      (repeat split;
       [ rewrite Hlen, ?length_app, ?List.length_app; simpl; lia
       | intros Hv; apply Hname;
         destruct (resolve_alias_cases cn (agent_name v)) as [[_ ->]|[_ ->]];
         [reflexivity | exact Hv]
       | intros Hv; apply Hlabel ]).
    + exact Hv.
    + intros label Hl. inversion Hl; subst label. now exists s.
Qed.

(** Once the agent name is the reserved label it stays so. *)
Lemma turn_loop_reserved (pairs : list (string * string)) :
  forall i v v',
    agent_name v = "Klantenservice" ->
    turn_loop i pairs v = Ok v' -> agent_name v' = "Klantenservice".
Proof.
  induction pairs as [|[s t] more IH]; simpl; intros i v v' Hv H.
  - now inversion H; subst v'.
  - destruct (turn_step_cases v i s t) as [[_ E]|(cn & Hcn & [[_ E]|[_ E]])];
      rewrite E in H; [discriminate| |];
      apply IH in H; auto; simpl; rewrite Hv; apply resolve_alias_reserved.
Qed.

(** A monologue leaves the client turns and the client label as they
    were. *)
Lemma turn_loop_monologue (pairs : list (string * string)) :
  forall i v,
    monologue (agent_name v) pairs = true ->
    exists v', turn_loop i pairs v = Ok v'
               /\ client_sentences v' = client_sentences v
               /\ actual_client_name v' = actual_client_name v.
Proof.
  induction pairs as [|[s t] more IH]; simpl; intros i v H.
  - eauto.
  - destruct (turn_step_cases v i s t) as [[Hcn E]|(cn & Hcn & Hcase)];
      rewrite Hcn in H; [discriminate|].
    apply andb_true_iff in H as [Hc Hm]. cbv zeta in Hcase.
    destruct Hcase as [[_ E]|[Hc' _]]; [|congruence].
    rewrite E.
    match goal with
    | |- context [turn_loop _ _ ?w] =>
        destruct (IH (S i) w Hm) as (v' & Hv' & H1 & H2)
    end.
    exists v'. simpl in *. auto.
Qed.

(** A client label, once bound, stays bound. *)
Lemma turn_loop_label_bound (pairs : list (string * string)) :
  forall i v v',
    actual_client_name v <> None ->
    turn_loop i pairs v = Ok v' -> actual_client_name v' <> None.
Proof.
  induction pairs as [|[s t] more IH]; simpl; intros i v v' Hv H.
  - now inversion H; subst.
  - destruct (turn_step_cases v i s t) as [[_ E]|(cn & _ & [[_ E]|[_ E]])];
      rewrite E in H; [discriminate| |]; apply IH in H; auto; simpl; discriminate.
Qed.

(** When extraction succeeds on every pair the loop returns, and unless the
    pairs are a monologue a client label is bound afterwards. *)
Lemma turn_loop_returns (pairs : list (string * string)) :
  forall i v,
    (forall s t, In (s, t) pairs -> has_colon_space s = true) ->
    exists v', turn_loop i pairs v = Ok v'
               /\ (monologue (agent_name v) pairs = false ->
                   actual_client_name v' <> None).
Proof.
  induction pairs as [|[s t] more IH]; simpl; intros i v Hall.
  - exists v. split; [reflexivity | discriminate].
  - destruct (turn_step_cases v i s t) as [[Hcn E]|(cn & Hcn & Hcase)].
    + apply apply_client_regex_fails_iff in Hcn.
      rewrite (Hall s t) in Hcn by auto. discriminate.
    + rewrite Hcn. cbv zeta in Hcase.
      destruct Hcase as [[Hc E]|[Hc E]]; rewrite E, Hc;
        match goal with
        | |- context [turn_loop _ _ ?w] =>
            destruct (IH (S i) w) as (v' & Hv' & Hm); [eauto|]
        end;
        exists v'; (split; [exact Hv'|]).
      * exact Hm.
      * intros _. eapply turn_loop_label_bound; [|exact Hv']. simpl. discriminate.
Qed.

Lemma label_ok_colon (carried : option string) (label : string) :
  label_ok carried -> carried = Some label -> Str.mem ":" label = true.
Proof.
  intros H Hc. destruct (H _ Hc) as (s & Hs).
  now apply apply_client_regex_colon in Hs.
Qed.

Lemma label_ok_none : label_ok None.
Proof. intros label H. discriminate. Qed.

(** A pair without a colon followed by whitespace stops the loop. *)
Lemma turn_loop_malformed (pairs : list (string * string)) :
  forall i v sentence timestamp,
    In (sentence, timestamp) pairs -> has_colon_space sentence = false ->
    turn_loop i pairs v = Error IndexError.
Proof.
  induction pairs as [|[s t] more IH]; simpl; intros i v sentence timestamp Hin Hbad;
    [contradiction|].
  destruct (turn_step_cases v i s t) as [[_ E]|(cn & Hcn & Hcase)].
  - now rewrite E.
  - destruct Hin as [Heq|Hin].
    + inversion Heq; subst s t.
      apply apply_client_regex_fails_iff in Hbad. congruence.
    + cbv zeta in Hcase. destruct Hcase as [[_ E]|[_ E]]; rewrite E; eauto.
Qed.

(** ** Building one dialogue *)

(** A dialogue that is built has the agent key and the client key, in that
    order, and one turn for each pair. *)
Lemma build_dialogue_shape (agent chatlog : string) (carried carried' : option string)
    (d : DialogueMap) :
  Str.mem ":" agent = false -> label_ok carried ->
  build_dialogue agent chatlog carried = Ok (d, carried') ->
  exists name label a_turns c_turns,
    d = [(name, a_turns); (label, c_turns)]
    /\ name <> label
    /\ carried' = Some label /\ label_ok carried'
    /\ List.length a_turns + List.length c_turns = List.length (paired chatlog).
Proof.
  intros Hagent Hcar. unfold build_dialogue.
  destruct (turn_loop 0 (paired chatlog) (mkLocals agent [] [] carried))
    as [v|e] eqn:E; [|discriminate].
  apply turn_loop_invariant in E as (Hlen & Hname & Hlabel). simpl in *.
  specialize (Hname Hagent). specialize (Hlabel Hcar).
  destruct (actual_client_name v) as [label|] eqn:L; [|discriminate].
  intros H. inversion H; subst d carried'. clear H.
  assert (Hne : agent_name v <> label).
  { intros Heq. pose proof (label_ok_colon _ _ Hlabel eq_refl) as Hc.
    rewrite <- Heq in Hc. congruence. }
  exists (agent_name v), label, (agent_sentences v), (client_sentences v).
  apply String.eqb_neq in Hne as Hb. rewrite Hb. repeat split; auto.
Qed.

(** The pairs are as many as the shorter of the two extracted sequences,
    when no paired sentence is empty. *)
Lemma combine_select_length (spans : list (string * string)) :
  forall stamps : list string,
    (forall span, In span spans -> fst span = EmptyString \/ snd span = EmptyString) ->
    (forall s t, In (s, t) (combine (select_sentences spans) stamps) ->
                 s <> EmptyString) ->
    List.length (combine (select_sentences spans) stamps)
    = Nat.min (List.length spans) (List.length stamps).
Proof.
  induction spans as [|[a b] spans IH]; intros stamps Hslots Hne.
  - reflexivity.
  - destruct stamps as [|t stamps].
    + rewrite combine_nil. simpl. reflexivity.
    + assert (Hrest : forall span, In span spans ->
                fst span = EmptyString \/ snd span = EmptyString)
        by (intros; apply Hslots; now right).
      simpl in Hne |- *.
      destruct (String.eqb a "") eqn:Ea, (String.eqb b "") eqn:Eb; simpl in *.
      * apply String.eqb_eq in Eb. subst b.
        exfalso. apply (Hne EmptyString t); auto.
      * f_equal. apply IH; auto. intros s t' H. apply (Hne s t'). auto.
      * f_equal. apply IH; auto. intros s t' H. apply (Hne s t'). auto.
      * apply String.eqb_neq in Ea, Eb.
        destruct (Hslots (a, b)) as [H|H]; simpl in *; auto; congruence.
Qed.

Lemma has_colon_space_nonempty (s : string) :
  has_colon_space s = true -> s <> EmptyString.
Proof. now destruct s. Qed.

Lemma paired_length (chatlog : string) :
  (forall s t, In (s, t) (paired chatlog) -> has_colon_space s = true) ->
  List.length (paired chatlog)
  = Nat.min (List.length (apply_chat_sentence_regex chatlog))
            (List.length (apply_timestamp_regex chatlog)).
Proof.
  intros H. unfold paired. apply combine_select_length.
  - apply apply_chat_sentence_regex_slots.
  - intros s t Hin. apply has_colon_space_nonempty. eapply H. exact Hin.
Qed.

(** ** The loops over the object *)

Lemma after_acquire_nil (self : ProcessChatlogs) : after_acquire [] [] self = self.
Proof. destruct self. unfold after_acquire. simpl. now rewrite app_nil_r. Qed.

Lemma after_client_check_nil (self : ProcessChatlogs) :
  after_client_check [] self = self.
Proof. destruct self. unfold after_client_check. simpl. now rewrite app_nil_r. Qed.

(** A run of the loop that returns has assigned some entries and logged
    some transcripts, the same whatever the object held before; the entries
    are the dialogues of the transcripts with an agent, and the logged
    transcripts those without. *)
Lemma acquire_loop_frame (logs : list string) :
  forall i carried self self',
    label_ok carried ->
    acquire_loop i logs carried self = Return tt self' ->
    exists entries errs,
      (forall other,
          acquire_loop i logs carried other
          = Return tt (after_acquire entries errs other))
      /\ ascending_from i (map fst entries)
      /\ (forall k d, In (k, d) entries ->
            exists chatlog c c',
              i <= k /\ nth_error logs (k - i) = Some chatlog
              /\ label_ok c
              /\ apply_agent_regex chatlog <> "No agent"
              /\ build_dialogue (apply_agent_regex chatlog) chatlog c = Ok (d, c'))
      /\ (forall j chatlog,
            nth_error logs j = Some chatlog ->
            apply_agent_regex chatlog = "No agent" ->
            In chatlog errs /\ ~ In (i + j) (map fst entries)).
Proof.
  induction logs as [|chatlog more IH]; intros i carried self self' Hcar H.
  - exists [], []. split; [|split; [|split]].
    + intros other. simpl. now rewrite after_acquire_nil.
    + exact I.
    + intros k d [].
    + intros [|j] c Hn; discriminate.
  - simpl in H.
    destruct (String.eqb (apply_agent_regex chatlog) "No agent") eqn:Eag.
    + apply String.eqb_eq in Eag.
      unfold bind, log_agent_error in H.
      apply IH in H as (entries & errs & Hrun & Hasc & Hprov & Hlog); [|exact Hcar].
      exists entries, (chatlog :: errs). split; [|split; [|split]].
      * intros other. simpl. apply String.eqb_eq in Eag as ->.
        unfold bind, log_agent_error. rewrite Hrun.
        unfold after_acquire. simpl. now rewrite <- app_assoc.
      * eapply ascending_from_weaken; [|exact Hasc]. lia.
      * intros k d Hin. destruct (Hprov k d Hin) as (c0 & c & c' & Hle & Hn & Hrest).
        exists c0, c, c'. split; [lia|]. split; [|exact Hrest].
        replace (k - i) with (S (k - S i)) by lia. exact Hn.
      * intros [|j] c Hn Hs; simpl in Hn.
        -- inversion Hn; subst c. split; [now left|].
           intros Hin. apply (ascending_from_lower _ _ Hasc) in Hin. lia.
        -- destruct (Hlog j c Hn Hs) as [H1 H2]. split; [now right|].
           now rewrite Nat.add_succ_r.
    + apply String.eqb_neq in Eag.
      destruct (build_dialogue (apply_agent_regex chatlog) chatlog carried)
        as [[d0 c0]|e] eqn:Eb; [|discriminate].
      pose proof Eb as Hshape.
      apply build_dialogue_shape in Hshape
        as (name & label & at' & ct & _ & _ & _ & Hc0 & _);
        [|now apply apply_agent_regex_no_colon | exact Hcar].
      unfold bind, store_dialogue in H.
      apply IH in H as (entries & errs & Hrun & Hasc & Hprov & Hlog); [|exact Hc0].
      exists ((i, d0) :: entries), errs. split; [|split; [|split]].
      * intros other. simpl. apply String.eqb_neq in Eag as ->. rewrite Eb.
        unfold bind, store_dialogue. rewrite Hrun. reflexivity.
      * simpl. split; [lia | exact Hasc].
      * intros k d [Heq|Hin].
        -- inversion Heq; subst k d. exists chatlog, carried, c0.
           rewrite Nat.sub_diag. simpl. auto.
        -- destruct (Hprov k d Hin) as (c1 & c & c' & Hle & Hn & Hrest).
           exists c1, c, c'. split; [lia|]. split; [|exact Hrest].
           replace (k - i) with (S (k - S i)) by lia. exact Hn.
      * intros [|j] c Hn Hs; simpl in Hn.
        -- inversion Hn; subst c. contradiction.
        -- destruct (Hlog j c Hn Hs) as [H1 H2]. split; [exact H1|].
           simpl. intros [Heq|Hin]; [lia|]. apply H2. now rewrite Nat.add_succ_r in Hin.
Qed.


(** The check for missing clients appends the same keys whatever the object
    held, and never touches [chat_dict]. *)
Lemma client_check_loop_frame (items : Corpus) :
  forall self self',
    client_check_loop items self = Return tt self' ->
    exists keys, forall other,
        client_check_loop items other = Return tt (after_client_check keys other).
Proof.
  induction items as [|[key dialogue] more IH]; intros self self' H.
  - exists []. intros other. simpl. now rewrite after_client_check_nil.
  - simpl in H |- *.
    destruct (Dict.keys dialogue) as [|CSM [|KLT [|x l]]]; try discriminate.
    destruct (Dict.get String.eqb KLT dialogue) as [turns|]; [|discriminate].
    unfold bind in H |- *.
    destruct (Nat.eqb (List.length turns) 0).
    + unfold log_client_error in H. apply IH in H as (keys & Hrun).
      exists (key :: keys). intros other. unfold log_client_error. rewrite Hrun.
      unfold after_client_check. simpl. now rewrite <- app_assoc.
    + unfold ret in H. apply IH in H as (keys & Hrun).
      exists keys. intros other. unfold ret. apply Hrun.
Qed.

Lemma client_check_loop_chat_dict (items : Corpus) :
  forall self,
    chat_dict (final_state (client_check_loop items self)) = chat_dict self.
Proof.
  induction items as [|[key dialogue] more IH]; intros self; simpl.
  - reflexivity.
  - destruct (Dict.keys dialogue) as [|CSM [|KLT [|x l]]]; try reflexivity.
    destruct (Dict.get String.eqb KLT dialogue) as [turns|]; [|reflexivity].
    unfold bind. destruct (Nat.eqb (List.length turns) 0).
    + unfold log_client_error.
      match goal with
      | |- context [client_check_loop more ?st] =>
          specialize (IH st); destruct (client_check_loop more st); exact IH
      end.
    + unfold ret. specialize (IH self).
      destruct (client_check_loop more self); exact IH.
Qed.

(** [return_chatlogs] with its calls laid out. *)
Lemma return_chatlogs_unfold (self : ProcessChatlogs) :
  return_chatlogs self =
  match acquire_loop 0 (chatlogs self) None self with
  | Raise e s1 => Raise e s1
  | Return _ s1 =>
      match client_check_loop (chat_dict s1) s1 with
      | Raise e s2 => Raise e s2
      | Return _ s2 =>
          Return (filter (fun kv => not_in (client_error_logs s2) (fst kv))
                         (chat_dict s2)) s2
      end
  end.
Proof.
  unfold return_chatlogs, find_chatlogs_without_client, acquire_dialogue,
    bind, get_self, ret.
  destruct (acquire_loop 0 (chatlogs self) None self) as [[] s1|e s1];
    [|reflexivity].
  destruct (client_check_loop (chat_dict s1) s1) as [[] s2|e s2]; reflexivity.
Qed.

Lemma not_in_app_twice (l new : list nat) (k : nat) :
  not_in ((l ++ new) ++ new) k = not_in (l ++ new) k.
Proof.
  unfold not_in. rewrite !existsb_app.
  destruct (existsb (Nat.eqb k) l), (existsb (Nat.eqb k) new); reflexivity.
Qed.

Lemma return_chatlogs_chat_dict (self : ProcessChatlogs) :
  chat_dict (final_state (return_chatlogs self))
  = chat_dict (final_state (acquire_loop 0 (chatlogs self) None self)).
Proof.
  rewrite return_chatlogs_unfold.
  destruct (acquire_loop 0 (chatlogs self) None self) as [[] s1|e s1];
    [|reflexivity].
  pose proof (client_check_loop_chat_dict (chat_dict s1) s1) as H.
  destruct (client_check_loop (chat_dict s1) s1) as [[] s2|e s2]; exact H.
Qed.

(** A call of [return_chatlogs] that returns, in terms of what its two
    loops did. *)
Lemma return_chatlogs_returns (self self' : ProcessChatlogs) (corpus : Corpus) :
  return_chatlogs self = Return corpus self' ->
  exists entries errs keys,
    self' = after_client_check keys (after_acquire entries errs self)
    /\ corpus = filter (fun kv => not_in (client_error_logs self ++ keys) (fst kv))
                       (fold_left assign entries (chat_dict self))
    /\ (forall other,
          acquire_loop 0 (chatlogs self) None other
          = Return tt (after_acquire entries errs other))
    /\ (forall other,
          client_check_loop (fold_left assign entries (chat_dict self)) other
          = Return tt (after_client_check keys other))
    /\ ascending_from 0 (map fst entries)
    /\ (forall k d, In (k, d) entries ->
          exists chatlog c c',
            nth_error (chatlogs self) k = Some chatlog
            /\ label_ok c
            /\ apply_agent_regex chatlog <> "No agent"
            /\ build_dialogue (apply_agent_regex chatlog) chatlog c = Ok (d, c'))
    /\ (forall j chatlog,
          nth_error (chatlogs self) j = Some chatlog ->
          apply_agent_regex chatlog = "No agent" ->
          In chatlog errs /\ ~ In j (map fst entries)).
Proof.
  rewrite return_chatlogs_unfold.
  destruct (acquire_loop 0 (chatlogs self) None self) as [[] s1|e s1] eqn:E1;
    [|discriminate].
  destruct (client_check_loop (chat_dict s1) s1) as [[] s2|e s2] eqn:E2;
    [|discriminate].
  intros H. inversion H; subst corpus self'. clear H.
  destruct (acquire_loop_frame _ _ _ _ _ label_ok_none E1)
    as (entries & errs & Hrun & Hasc & Hprov & Hlog).
  rewrite Hrun in E1. inversion E1; subst s1. clear E1.
  destruct (client_check_loop_frame _ _ _ E2) as (keys & Hcheck).
  rewrite Hcheck in E2. inversion E2; subst s2. clear E2.
  exists entries, errs, keys. simpl in *.
  repeat split; auto.
  - intros k d Hin. destruct (Hprov k d Hin) as (c0 & c & c' & _ & Hn & Hrest).
    rewrite Nat.sub_0_r in Hn. eauto.
  - now apply (Hlog j chatlog).
  - now apply (Hlog j chatlog).
Qed.

Lemma keys_filter {V : Type} (f : nat * V -> bool) (l : list (nat * V)) (k : nat) :
  In k (Dict.keys (filter f l)) -> In k (Dict.keys l).
Proof.
  unfold Dict.keys. intros H. apply in_map_iff in H as (kv & <- & Hin).
  apply filter_In in Hin as [Hin _]. now apply in_map.
Qed.

(** * The claims of the specification *)

(** C1, as stated, fails: for the transcript
    ["Agent Jan zei: (0s 10s) Klant: hoi (10s 20s) Jan: hallo"] the tokenizer
    finds no timestamp token and the extractor no span, so it is not the case
    that two tokens and three spans are found and the Corpus entry has agent
    key "Jan" with the one turn "hallo" and client key "Klant" with the one
    turn "hoi". *)
Lemma C1_spec_example_counterexample :
  let transcript := "Agent Jan zei: (0s 10s) Klant: hoi (10s 20s) Jan: hallo" in
  apply_timestamp_regex transcript = []
  /\ apply_chat_sentence_regex transcript = []
  /\ ~ (List.length (apply_timestamp_regex transcript) = 2
        /\ List.length (apply_chat_sentence_regex transcript) = 3
        /\ exists self ia ta ic tc,
             return_chatlogs (new_ProcessChatlogs [transcript])
             = Return [(0, [("Jan", [(ia, "hallo", ta)]);
                            ("Klant", [(ic, "hoi", tc)])])] self).
Proof.
  cbv zeta. split; [vm_compute; reflexivity|]. split; [vm_compute; reflexivity|].
  intros [H _]. vm_compute in H. discriminate.
Qed.

(** C1, amended: with the timestamps written as the patterns require them,
    a blank inside each parenthesis, the transcript
    ["Agent Jan zei: ( 0s 10s ) Klant: hoi ( 10s 20s ) Jan: hallo"] yields two
    timestamp tokens and two spans, and its Corpus entry has agent key "Jan"
    with the one turn "hallo" and client key "Klant: " with the one turn
    "hoi "; written without those blanks, as in the specification, it yields
    no token and no span. *)
Theorem C1_spec_example_amended :
  let transcript := "Agent Jan zei: ( 0s 10s ) Klant: hoi ( 10s 20s ) Jan: hallo" in
  let unspaced := "Agent Jan zei: (0s 10s) Klant: hoi (10s 20s) Jan: hallo" in
  let dialogue := [("Jan", [(1, "hallo", "( 10s 20s )")]);
                   ("Klant: ", [(0, "hoi ", "( 0s 10s )")])] in
  apply_timestamp_regex transcript = ["( 0s 10s )"; "( 10s 20s )"]
  /\ apply_chat_sentence_regex transcript
     = [("Klant: hoi ", ""); ("", "Jan: hallo")]
  /\ return_chatlogs (new_ProcessChatlogs [transcript])
     = Return [(0, dialogue)] (mkPCL [transcript] [(0, dialogue)] [] [])
  /\ apply_timestamp_regex unspaced = []
  /\ apply_chat_sentence_regex unspaced = [].
Proof. cbv zeta. repeat split; vm_compute; reflexivity. Qed.

(** C9, as stated, fails: for the transcript ["5s ) ( "] the extractor
    returns one span both of whose slots are empty, so not every span has
    exactly one non-empty slot. *)
Lemma C9_both_slots_empty_counterexample :
  apply_chat_sentence_regex "5s ) ( " = [("", "")]
  /\ ~ (forall chatlog span,
          In span (apply_chat_sentence_regex chatlog) ->
          (fst span <> "" /\ snd span = "") \/ (fst span = "" /\ snd span <> "")).
Proof.
  split; [vm_compute; reflexivity|].
  intros H. destruct (H "5s ) ( " ("", "")) as [[H1 _]|[_ H2]].
  - vm_compute. now left.
  - now apply H1.
  - now apply H2.
Qed.

(** C9, amended: every span value the segment extractor returns is a
    two-slot record in which at most one slot is a non-empty string: the
    interior slot or the trailing slot is the empty string, for every input
    transcript (both are empty when the matched span has no text). *)
Theorem C9_span_has_an_empty_slot (chatlog : string) (span : string * string) :
  In span (apply_chat_sentence_regex chatlog) ->
  fst span = "" \/ snd span = "".
Proof. apply apply_chat_sentence_regex_slots. Qed.

Lemma C9_span_has_an_empty_slot_witness :
  fst ("Klant: hoi ", "") = "" \/ snd ("Klant: hoi ", "") = "".
Proof.
  apply (C9_span_has_an_empty_slot
           "Agent Jan zei: ( 0s 10s ) Klant: hoi ( 10s 20s ) Jan: hallo").
  vm_compute. now left.
Defined.

(** C5: a paired text span with no occurrence of a colon followed by
    whitespace makes client-name extraction raise IndexError, and the error
    leaves dialogue building and the loop over the transcripts uncaught: the
    span is not skipped and nothing is stored for the transcript. *)
Theorem C5_malformed_span_propagates (chatlog sentence timestamp : string) :
  In (sentence, timestamp) (paired chatlog) ->
  has_colon_space sentence = false ->
  apply_client_regex sentence = Error IndexError
  /\ (forall agent carried,
        build_dialogue agent chatlog carried = Error IndexError)
  /\ (apply_agent_regex chatlog <> "No agent" ->
      forall i more carried self,
        acquire_loop i (chatlog :: more) carried self = Raise IndexError self).
Proof.
  intros Hin Hbad.
  assert (Hbuild : forall agent carried,
             build_dialogue agent chatlog carried = Error IndexError).
  { intros agent carried. unfold build_dialogue.
    now rewrite (turn_loop_malformed _ _ _ _ _ Hin Hbad). }
  split; [now apply apply_client_regex_fails_iff|]. split; [exact Hbuild|].
  intros Hagent i more carried self. simpl.
  apply String.eqb_neq in Hagent. rewrite Hagent, Hbuild. reflexivity.
Qed.

Lemma C5_malformed_span_propagates_witness :
  apply_client_regex "hoi" = Error IndexError
  /\ (forall agent carried,
        build_dialogue agent "Agent Jan ( 1s )( 2s ) hoi" carried
        = Error IndexError)
  /\ (apply_agent_regex "Agent Jan ( 1s )( 2s ) hoi" <> "No agent" ->
      forall i more carried self,
        acquire_loop i ("Agent Jan ( 1s )( 2s ) hoi" :: more) carried self
        = Raise IndexError self).
Proof.
  apply (C5_malformed_span_propagates "Agent Jan ( 1s )( 2s ) hoi" "hoi" "( 1s )").
  - vm_compute. now left.
  - vm_compute. reflexivity.
Defined.

(** C6, as stated, fails: from the transcript ["Agent Jan ( 1s )( 2s ) hoi"]
    two timestamp tokens and one span are extracted, yet no turn is
    produced, let alone min(2, 1) = 1: the one paired span has no "name: "
    prefix and dialogue building raises IndexError. *)
Lemma C6_truncation_counterexample :
  let transcript := "Agent Jan ( 1s )( 2s ) hoi" in
  List.length (apply_timestamp_regex transcript) = 2
  /\ List.length (apply_chat_sentence_regex transcript) = 1
  /\ apply_agent_regex transcript = "Jan"
  /\ return_chatlogs (new_ProcessChatlogs [transcript])
     = Raise IndexError (new_ProcessChatlogs [transcript])
  /\ ~ (forall chatlog carried,
          List.length (apply_timestamp_regex chatlog)
          <> List.length (apply_chat_sentence_regex chatlog) ->
          exists d carried',
            build_dialogue (apply_agent_regex chatlog) chatlog carried
            = Ok (d, carried')
            /\ total_turns d
               = Nat.min (List.length (apply_timestamp_regex chatlog))
                         (List.length (apply_chat_sentence_regex chatlog))).
Proof.
  cbv zeta. repeat split; try (vm_compute; reflexivity).
  intros H. destruct (H "Agent Jan ( 1s )( 2s ) hoi" None) as (d & c & Hb & _).
  - vm_compute. discriminate.
  - vm_compute in Hb. discriminate.
Qed.

(** C6, amended: for every transcript with an agent in which every paired
    span has a "name: " prefix and a client label is at hand (one recorded
    by an earlier transcript, or a span of this one that is not an agent
    turn), dialogue building returns a DialogueMap with exactly min(N, M)
    turns in total across the agent and client turn lists, N and M being
    the numbers of extracted timestamp tokens and spans, equal or not. *)
Theorem C6_truncation_law (chatlog : string) (carried : option string) :
  apply_agent_regex chatlog <> "No agent" ->
  label_ok carried ->
  (forall s t, In (s, t) (paired chatlog) -> has_colon_space s = true) ->
  carried <> None \/ monologue (apply_agent_regex chatlog) (paired chatlog) = false ->
  exists d carried',
    build_dialogue (apply_agent_regex chatlog) chatlog carried = Ok (d, carried')
    /\ total_turns d
       = Nat.min (List.length (apply_timestamp_regex chatlog))
                 (List.length (apply_chat_sentence_regex chatlog)).
Proof.
  intros Hagent Hcar Hall Hlabel.
  assert (Hret : exists d carried',
             build_dialogue (apply_agent_regex chatlog) chatlog carried
             = Ok (d, carried')).
  { unfold build_dialogue.
    destruct (turn_loop_returns (paired chatlog) 0
                (mkLocals (apply_agent_regex chatlog) [] [] carried) Hall)
      as (v & Hv & Hbound).
    rewrite Hv. simpl in Hbound.
    assert (Hsome : actual_client_name v <> None).
    { destruct Hlabel as [Hc|Hm]; [|auto].
      eapply turn_loop_label_bound; [|exact Hv]. exact Hc. }
    destruct (actual_client_name v); [eauto | congruence]. }
  destruct Hret as (d & carried' & Hb). exists d, carried'.
  split; [exact Hb|].
  apply build_dialogue_shape in Hb
    as (name & label & a_turns & c_turns & -> & _ & _ & _ & Hlen);
    [|now apply apply_agent_regex_no_colon | exact Hcar].
  unfold total_turns. simpl. rewrite Nat.add_0_r, Hlen.
  rewrite (paired_length _ Hall). apply Nat.min_comm.
Qed.

Lemma C6_truncation_law_witness :
  exists d carried',
    build_dialogue (apply_agent_regex "Agent Jan ( 1s ) Klant: hoi ( 2s )( 3s )")
      "Agent Jan ( 1s ) Klant: hoi ( 2s )( 3s )" None = Ok (d, carried')
    /\ total_turns d
       = Nat.min
           (List.length (apply_timestamp_regex "Agent Jan ( 1s ) Klant: hoi ( 2s )( 3s )"))
           (List.length (apply_chat_sentence_regex "Agent Jan ( 1s ) Klant: hoi ( 2s )( 3s )")).
Proof.
  apply (C6_truncation_law "Agent Jan ( 1s ) Klant: hoi ( 2s )( 3s )" None).
  - vm_compute. discriminate.
  - intros label H. discriminate.
  - vm_compute. intros s t [H|[]]. now inversion H.
  - right. vm_compute. reflexivity.
Defined.

(** C2, as stated, fails: the transcript
    ["Agent Jan ( 0s 10s ) Klantenservice: hallo ( 10s 20s ) Klant: hoi"] is
    retained with two pairs processed, one of them a span whose prefix is
    the reserved service label, and its dialogue holds two turns, not
    2 - 1: the reserved-label span is an agent turn. *)
Lemma C2_reserved_span_counterexample :
  let transcript :=
    "Agent Jan ( 0s 10s ) Klantenservice: hallo ( 10s 20s ) Klant: hoi" in
  let dialogue := [("Klantenservice", [(0, "hallo ", "( 0s 10s )")]);
                   ("Klant: ", [(1, "hoi", "( 10s 20s )")])] in
  return_chatlogs (new_ProcessChatlogs [transcript])
  = Return [(0, dialogue)] (mkPCL [transcript] [(0, dialogue)] [] [])
  /\ List.length (paired transcript) = 2
  /\ List.length (reserved_spans (paired transcript)) = 1
  /\ total_turns dialogue = 2
  /\ total_turns dialogue
     <> List.length (paired transcript)
        - List.length (reserved_spans (paired transcript)).
Proof. cbv zeta. repeat split; try (vm_compute; reflexivity). vm_compute. discriminate. Qed.

(** C2, amended: for every transcript retained in the Corpus that
    [return_chatlogs] returns on a new object, its DialogueMap has exactly
    two keys, distinct, and the sum of the lengths of the agent turn list
    and the client turn list equals the number of paired (span, timestamp)
    entries processed for that transcript; spans whose prefix is the
    reserved service label are counted among them, as agent turns. *)
Theorem C2_retained_dialogue_turns (logs : list string) (corpus : Corpus)
    (self' : ProcessChatlogs) (k : nat) (d : DialogueMap) :
  return_chatlogs (new_ProcessChatlogs logs) = Return corpus self' ->
  In (k, d) corpus ->
  exists chatlog,
    nth_error logs k = Some chatlog
    /\ List.length (Dict.keys d) = 2
    /\ NoDup (Dict.keys d)
    /\ total_turns d = List.length (paired chatlog).
Proof.
  intros Hrun Hin.
  apply return_chatlogs_returns in Hrun
    as (entries & errs & keys & _ & -> & _ & _ & _ & Hprov & _).
  apply filter_In in Hin as [Hin _]. simpl in Hin.
  apply fold_set_in in Hin as [[]|Hin].
  destruct (Hprov k d Hin) as (chatlog & c & c' & Hn & Hc & Hagent & Hb).
  simpl in Hn. exists chatlog. split; [exact Hn|].
  apply build_dialogue_shape in Hb
    as (name & label & a_turns & c_turns & -> & Hne & _ & _ & Hlen);
    [|now apply apply_agent_regex_no_colon | exact Hc].
  unfold total_turns. simpl. rewrite Nat.add_0_r. repeat split; auto.
  constructor; [|constructor; [|constructor]]; simpl; intuition congruence.
Qed.

Lemma C2_retained_dialogue_turns_witness :
  exists chatlog,
    nth_error ["Agent Jan ( 0s 10s ) Klantenservice: hallo ( 10s 20s ) Klant: hoi"] 0
    = Some chatlog
    /\ List.length (Dict.keys [("Klantenservice", [(0, "hallo ", "( 0s 10s )")]);
                               ("Klant: ", [(1, "hoi", "( 10s 20s )")])]) = 2
    /\ NoDup (Dict.keys [("Klantenservice", [(0, "hallo ", "( 0s 10s )")]);
                         ("Klant: ", [(1, "hoi", "( 10s 20s )")])])
    /\ total_turns [("Klantenservice", [(0, "hallo ", "( 0s 10s )")]);
                    ("Klant: ", [(1, "hoi", "( 10s 20s )")])]
       = List.length (paired chatlog).
Proof.
  eapply (C2_retained_dialogue_turns
            ["Agent Jan ( 0s 10s ) Klantenservice: hallo ( 10s 20s ) Klant: hoi"]).
  - vm_compute. reflexivity.
  - now left.
Defined.

(** C3, as stated, fails: on a new object with the one transcript ["hoi"],
    which has no agent, one call leaves [agent_error_logs] with one entry
    and a second call leaves it with two. *)
Lemma C3_logs_grow_counterexample :
  let self0 := new_ProcessChatlogs ["hoi"] in
  let self1 := mkPCL ["hoi"] [] ["hoi"] [] in
  let self2 := mkPCL ["hoi"] [] ["hoi"; "hoi"] [] in
  return_chatlogs self0 = Return [] self1
  /\ return_chatlogs self1 = Return [] self2
  /\ agent_error_logs self2 <> agent_error_logs self1.
Proof. cbv zeta. repeat split; try (vm_compute; reflexivity). vm_compute. discriminate. Qed.

(** C3, amended: when a call of [return_chatlogs] returns, a second call on
    the object as the first left it returns the same Corpus and leaves
    [chat_dict] as it was, and it appends to [agent_error_logs] and to
    [client_error_logs] once more the very entries the first call appended:
    the logs hold the same entries as after one call, each of the first
    call's a second time. *)
Theorem C3_second_call (self self1 : ProcessChatlogs) (corpus : Corpus) :
  return_chatlogs self = Return corpus self1 ->
  exists self2 new_agent_errors new_client_errors,
    return_chatlogs self1 = Return corpus self2
    /\ chat_dict self2 = chat_dict self1
    /\ agent_error_logs self1 = agent_error_logs self ++ new_agent_errors
    /\ agent_error_logs self2 = agent_error_logs self1 ++ new_agent_errors
    /\ client_error_logs self1 = client_error_logs self ++ new_client_errors
    /\ client_error_logs self2 = client_error_logs self1 ++ new_client_errors.
Proof.
  intros Hrun.
  apply return_chatlogs_returns in Hrun
    as (entries & errs & keys & -> & -> & Hacq & Hcheck & Hasc & _ & _).
  exists (after_client_check keys
            (after_acquire entries errs
               (after_client_check keys (after_acquire entries errs self)))),
    errs, keys.
  split; [|split; [|simpl; repeat split; reflexivity]].
  - rewrite return_chatlogs_unfold. simpl chatlogs. rewrite Hacq.
    simpl chat_dict. rewrite (fold_set_twice _ _ _ Hasc), Hcheck.
    f_equal. simpl. rewrite (fold_set_twice _ _ _ Hasc).
    apply filter_ext. intros kv. apply not_in_app_twice.
  - simpl. apply (fold_set_twice _ _ _ Hasc).
Qed.

Lemma C3_second_call_witness :
  exists self2 new_agent_errors new_client_errors,
    return_chatlogs (mkPCL ["hoi"; "Agent Jan ( 1s ) Klant: hoi"]
                           [(1, [("Jan", []); ("Klant: ", [(0, "hoi", "( 1s )")])])]
                           ["hoi"] [])
    = Return [(1, [("Jan", []); ("Klant: ", [(0, "hoi", "( 1s )")])])] self2
    /\ chat_dict self2 = [(1, [("Jan", []); ("Klant: ", [(0, "hoi", "( 1s )")])])]
    /\ ["hoi"] = [] ++ new_agent_errors
    /\ agent_error_logs self2 = ["hoi"] ++ new_agent_errors
    /\ [] = [] ++ new_client_errors
    /\ client_error_logs self2 = [] ++ new_client_errors.
Proof.
  apply (C3_second_call (new_ProcessChatlogs ["hoi"; "Agent Jan ( 1s ) Klant: hoi"])).
  vm_compute. reflexivity.
Defined.



(** C8, at the failing input: on a new object whose one transcript
    ["Agent Jan ( 0s 10s ) Jan: hallo"] has an agent and only an agent turn,
    [return_chatlogs] raises NameError with [chat_dict] and
    [client_error_logs] empty: no DialogueMap with an empty client turn
    list is built and the index is not logged.  The same transcript coming
    second, after one with a client turn, is built with an empty client turn
    list, logged in [client_error_logs] and left out of the Corpus. *)
Theorem C8_first_monologue_raises :
  apply_agent_regex "Agent Jan ( 0s 10s ) Jan: hallo" = "Jan"
  /\ paired "Agent Jan ( 0s 10s ) Jan: hallo" = [("Jan: hallo", "( 0s 10s )")]
  /\ monologue "Jan" (paired "Agent Jan ( 0s 10s ) Jan: hallo") = true
  /\ return_chatlogs (new_ProcessChatlogs ["Agent Jan ( 0s 10s ) Jan: hallo"])
     = Raise NameError (mkPCL ["Agent Jan ( 0s 10s ) Jan: hallo"] [] [] [])
  /\ return_chatlogs
       (new_ProcessChatlogs ["Agent Jan ( 1s ) Klant: hoi";
                             "Agent Jan ( 0s 10s ) Jan: hallo"])
     = Return [(0, [("Jan", []); ("Klant: ", [(0, "hoi", "( 1s )")])])]
         (mkPCL ["Agent Jan ( 1s ) Klant: hoi"; "Agent Jan ( 0s 10s ) Jan: hallo"]
                [(0, [("Jan", []); ("Klant: ", [(0, "hoi", "( 1s )")])]);
                 (1, [("Jan", [(0, "hallo", "( 0s 10s )")]); ("Klant: ", [])])]
                [] [1]).
Proof. repeat split; vm_compute; reflexivity. Qed.

(** * Further properties of the code *)

(** ** Occurrences *)

Lemma occurs_prefix (w s : string) : occurs w (w ++ s)%string.
Proof. exists EmptyString, s. reflexivity. Qed.

Lemma occurs_app_l (v w s : string) : occurs v s -> occurs v (w ++ s)%string.
Proof.
  intros (pre & post & ->). exists (w ++ pre)%string, post.
  now rewrite app_assoc_str.
Qed.

Lemma suffix_of_split (t s : string) :
  suffix_of t s -> exists u, s = (u ++ t)%string.
Proof.
  induction 1 as [|a s _ (u & ->)].
  - now exists EmptyString.
  - now exists (String a u).
Qed.

Lemma occurs_suffix (v t s : string) : suffix_of t s -> occurs v t -> occurs v s.
Proof. intros Hs Ho. apply suffix_of_split in Hs as (u & ->). now apply occurs_app_l. Qed.

Lemma startswith_app (v s : string) : Str.startswith v (v ++ s)%string = true.
Proof.
  induction v as [|a v IH]; simpl; [now destruct s|].
  now rewrite Ascii.eqb_refl, IH.
Qed.

Lemma contains_app_l (v w s : string) :
  Str.contains v s = true -> Str.contains v (w ++ s)%string = true.
Proof.
  intros H. induction w as [|a w IH]; simpl; [exact H|].
  rewrite IH. apply orb_true_r.
Qed.

(** An occurrence is what [in] tests. *)
Lemma occurs_contains (v s : string) : occurs v s -> Str.contains v s = true.
Proof.
  intros (pre & post & ->). apply contains_app_l.
  destruct (v ++ post)%string eqn:E; simpl.
  - destruct v; [reflexivity | discriminate].
  - rewrite <- E, startswith_app. reflexivity.
Qed.

(** What a group holds after a match was there before or was read from the
    input. *)
Lemma matches_captures (r : regex) :
  forall s c s' c' n v,
    matches r s c s' c' -> c' n = Some v -> c n = Some v \/ occurs v s.
Proof.
  induction r as [|p|p lo hi g|r1 IH1 r2 IH2|r1 IH1 r2 IH2|m r1 IH1|];
    simpl; intros s c s' c' n v H Hv.
  - destruct H as [_ ->]. auto.
  - destruct H as (a & _ & _ & ->). auto.
  - destruct H as (w & _ & _ & _ & _ & ->). auto.
  - destruct H as (s1 & c1 & H1 & H2).
    destruct (IH2 _ _ _ _ _ _ H2 Hv) as [Hc|Ho]; [eauto|].
    right. apply matches_reads in H1 as (w & -> & _). now apply occurs_app_l.
  - destruct H as [H|H]; eauto.
  - destruct H as (c1 & H & ->). unfold set_group in Hv.
    destruct (Nat.eqb n m).
    + right. inversion Hv; subst v.
      apply matches_reads in H as (w & -> & _).
      rewrite consumed_app. apply occurs_prefix.
    + eauto.
  - destruct H as (_ & -> & _). auto.
Qed.

(** The text of a found match and of its groups occurs in the searched
    text. *)
Lemma finditer_occurs (r : regex) (s : string) (f : found) :
  In f (finditer r s) ->
  occurs (whole f) s /\ forall n, occurs (group n f) s.
Proof.
  intros H. unfold finditer in H. revert H.
  generalize (S (String.length s)). intros n. revert s.
  induction n as [|n IH]; simpl; intros s H; [contradiction|].
  destruct (search r s) as [g|] eqn:E; [|contradiction].
  destruct H as [->|H].
  - apply search_sound in E as (t & Ht & Hm & Hw).
    pose proof (matches_reads _ _ _ _ _ Hm) as (w & Hw' & _).
    split.
    + rewrite Hw, Hw', consumed_app. apply (occurs_suffix _ _ _ Ht).
      rewrite Hw'. apply occurs_prefix.
    + intros k. unfold group. destruct (groups f k) as [v|] eqn:G.
      * destruct (matches_captures _ _ _ _ _ _ _ Hm G) as [Hc|Ho];
          [discriminate|]. now apply (occurs_suffix _ _ _ Ht).
      * exists EmptyString, s. reflexivity.
  - apply IH in H as [H1 H2].
    apply search_sound in E as (t & Ht & Hm & _).
    apply matches_reads in Hm as (w & -> & _).
    assert (Hsuf : suffix_of (rest g) s)
      by (eapply suffix_of_trans; [apply suffix_of_app | exact Ht]).
    split; [|intros k]; eapply occurs_suffix; eauto.
Qed.

Lemma matches_lit (u : string) :
  forall s c s' c', matches (lit u) s c s' c' -> s = (u ++ s')%string /\ c' = c.
Proof.
  induction u as [|a u IH]; simpl; intros s c s' c' H.
  - destruct H as [-> ->]. auto.
  - destruct H as (s1 & c1 & (b & -> & Hb & ->) & H).
    apply Ascii.eqb_eq in Hb. subst b.
    apply IH in H as [-> ->]. auto.
Qed.

(** A text shorter than the least match has no match. *)
Lemma search_short (r : regex) (s : string) :
  String.length s < min_len r -> search r s = None.
Proof.
  intros Hlen. destruct (search r s) as [f|] eqn:E; [|reflexivity].
  apply search_sound in E as (t & Ht & Hm & _).
  apply matches_reads in Hm as (w & -> & Hw).
  apply suffix_of_length in Ht. rewrite length_app in Ht. lia.
Qed.

(** The matches after a given one are the matches of what it left. *)
Lemma finditer_rounds_split (r : regex) (f : found) (l2 : list found) :
  forall l1 n s,
    finditer_rounds n r s = l1 ++ f :: l2 ->
    exists m, l2 = finditer_rounds m r (rest f).
Proof.
  induction l1 as [|g l1 IH]; intros n s H; destruct n as [|n]; simpl in H;
    try discriminate;
    destruct (search r s) as [h|]; try discriminate; inversion H; subst.
  - now exists n.
  - eapply IH. eassumption.
Qed.

(** ** Longest and shortest repetitions *)

Section Repetition.

Context {R : Type} (p : ascii -> bool).

Lemma rep_greedy_never_fails (s : string) (k : string -> option R) :
  (forall s', k s' <> None) -> rep_greedy p 0 None s k <> None.
Proof.
  intros Hk. induction s as [|a s IH]; simpl; [apply Hk|].
  destruct (p a); simpl; [|apply Hk].
  destruct (rep_greedy p 0 None s k); [discriminate | apply Hk].
Qed.

(** When what follows cannot fail, a greedy repetition reads every
    character it can. *)
Lemma rep_greedy_longest (s : string) :
  forall lo (k : string -> option R) x,
    lo <= 1 -> (forall s', k s' <> None) ->
    rep_greedy p lo None s k = Some x ->
    exists w s', s = (w ++ s')%string /\ Str.all p w = true
                 /\ lo <= String.length w /\ k s' = Some x
                 /\ match s' with String a _ => p a = false | EmptyString => True end.
Proof.
  induction s as [|a s IH]; intros lo k x Hlo Hk H; simpl in H.
  - destruct lo; simpl in H; [|discriminate].
    exists EmptyString, EmptyString. auto.
  - destruct (p a) eqn:Hp; simpl in H.
    + assert (Hrec : rep_greedy p (pred lo) None s k <> None).
      { replace (pred lo) with 0 by lia. now apply rep_greedy_never_fails. }
      destruct (rep_greedy p (pred lo) None s k) as [y|] eqn:E; [|congruence].
      inversion H; subst y.
      apply IH in E as (w & s' & -> & Hw & _ & Hx & Hnext); [|lia|exact Hk].
      exists (String a w), s'. simpl. rewrite Hp, Hw. repeat split; auto. lia.
    + destruct lo; simpl in H; [|discriminate].
      exists EmptyString, (String a s). simpl. auto.
Qed.

(** A lazy repetition stops at the first place where what follows
    succeeds. *)
Lemma rep_lazy_shortest (s : string) :
  forall hi (k : string -> option R) x,
    rep_lazy p 0 hi s k = Some x ->
    exists w s', s = (w ++ s')%string /\ Str.all p w = true /\ k s' = Some x
                 /\ forall w1 w2, w = (w1 ++ w2)%string -> w2 <> EmptyString ->
                                  k (w2 ++ s')%string = None.
Proof.
  induction s as [|a s IH]; intros hi k x H; simpl in H.
  - destruct (k EmptyString) eqn:K; [|discriminate]. inversion H; subst r.
    exists EmptyString, EmptyString. repeat split; auto.
    intros [|] [|] Hw Hne; try discriminate. congruence.
  - destruct (k (String a s)) eqn:K.
    + inversion H; subst r. exists EmptyString, (String a s).
      repeat split; auto.
      intros [|] [|] Hw Hne; try discriminate. congruence.
    + destruct (p a && can_take hi) eqn:E; [|discriminate].
      apply andb_true_iff in E as [Hp _].
      apply IH in H as (w & s' & -> & Hw & Hx & Hmin).
      exists (String a w), s'. simpl. rewrite Hp, Hw. repeat split; auto.
      intros [|b w1] w2 Hsplit Hne; simpl in Hsplit.
      * subst w2. exact K.
      * inversion Hsplit; subst. eapply Hmin; eauto.
Qed.

End Repetition.

Lemma search_match_here (r : regex) (s : string) (f : found) :
  search r s = Some f ->
  exists t, suffix_of t s /\ match_here r t = Some (groups f, rest f)
            /\ whole f = consumed t (rest f).
Proof.
  induction s as [|a s IH]; simpl; intros H.
  - destruct (match_here r EmptyString) as [[c s']|] eqn:E; [|discriminate].
    inversion H; subst f; simpl. exists EmptyString. repeat split; auto. constructor.
  - destruct (match_here r (String a s)) as [[c s']|] eqn:E.
    + inversion H; subst f; simpl. exists (String a s). repeat split; auto. constructor.
    + destruct (IH H) as (t & Ht & Hm). exists t. split; [now constructor | exact Hm].
Qed.

(** ** The extraction methods, further *)

(** X1: when agent extraction finds a name, the name is a non-empty run of
    word characters that stands in the transcript right after "Agent" and
    one whitespace character, and it is the whole run: no word character
    follows it there. *)
Theorem X1_agent_name_is_whole_word (chatlog : string) :
  apply_agent_regex chatlog <> "No agent" ->
  apply_agent_regex chatlog <> ""
  /\ Str.all is_word (apply_agent_regex chatlog) = true
  /\ exists sp before after,
       is_space sp = true
       /\ chatlog = (before ++ "Agent" ++ String sp (apply_agent_regex chatlog)
                     ++ after)%string
       /\ match after with
          | String a _ => is_word a = false
          | EmptyString => True
          end.
Proof.
  unfold apply_agent_regex, findall1.
  destruct (finditer regex_agent_name chatlog) as [|f fs] eqn:E; simpl;
    [congruence|].
  intros _. apply finditer_head in E.
  pose proof (agent_capture _ _ E) as (v & Hv & Hne & Hw).
  unfold group. rewrite Hv. split; [exact Hne|]. split; [exact Hw|].
  apply search_match_here in E as (t & Ht & Hm & _).
  apply suffix_of_split in Ht as (before & ->).
  unfold match_here, regex_agent_name in Hm. cbn [cat fold_right exec] in Hm.
  apply exec_sound in Hm as (s1 & c1 & Hlit & Hm).
  apply matches_lit in Hlit as [-> ->].
  destruct s1 as [|sp s2]; [discriminate|].
  destruct (is_space sp) eqn:Hsp; [|discriminate].
  apply rep_greedy_longest in Hm
    as (w & after & -> & _ & _ & Hk & Hnext); [|lia|discriminate].
  inversion Hk as [[Hg Hr]]. rewrite <- Hg in Hv.
  unfold set_group in Hv. simpl in Hv. rewrite consumed_app in Hv.
  inversion Hv; subst v.
  exists sp, before, after. repeat split; auto. now rewrite <- Hr.
Qed.

Lemma X1_agent_name_is_whole_word_witness :
  apply_agent_regex "Hoi, Agent Jan-Willem zegt" <> ""
  /\ Str.all is_word (apply_agent_regex "Hoi, Agent Jan-Willem zegt") = true
  /\ exists sp before after,
       is_space sp = true
       /\ "Hoi, Agent Jan-Willem zegt"
          = (before ++ "Agent"
             ++ String sp (apply_agent_regex "Hoi, Agent Jan-Willem zegt")
             ++ after)%string
       /\ match after with
          | String a _ => is_word a = false
          | EmptyString => True
          end.
Proof.
  apply (X1_agent_name_is_whole_word "Hoi, Agent Jan-Willem zegt").
  vm_compute. discriminate.
Defined.

(** X2: agent extraction returns the sentinel "No agent" exactly when the
    pattern finds nothing in the transcript; a name it captures is never
    taken for the sentinel. *)
Theorem X2_sentinel_iff_no_match (chatlog : string) :
  apply_agent_regex chatlog = "No agent"
  <-> findall1 regex_agent_name chatlog = [].
Proof. apply apply_agent_regex_sentinel. Qed.

Lemma has_colon_space_hd (a : ascii) (u v : string) :
  has_colon_space (String a (u ++ String ":" EmptyString))
  = (Ascii.eqb a ":"
     && match (u ++ String ":" v)%string with
        | String b _ => is_space b
        | EmptyString => false
        end)
    || has_colon_space (u ++ String ":" EmptyString).
Proof. destruct u; reflexivity. Qed.

(** The label client-name extraction returns, in full. *)
Lemma apply_client_regex_shape (sentence label : string) :
  apply_client_regex sentence = Ok label ->
  exists name sp,
    label = (name ++ String ":" (String sp EmptyString))%string
    /\ is_space sp = true
    /\ Str.mem line_feed name = false
    /\ has_colon_space (name ++ String ":" EmptyString) = false
    /\ Str.contains label sentence = true.
Proof.
  unfold apply_client_regex, findall1.
  destruct (finditer regex_client_name sentence) as [|f fs] eqn:E;
    [discriminate|].
  simpl. intros H. inversion H; subst label. clear H.
  assert (Hin : In f (finditer regex_client_name sentence))
    by (rewrite E; now left).
  apply finditer_occurs in Hin as [_ Hocc]. specialize (Hocc 1).
  apply finditer_head in E. apply search_match_here in E as (t & _ & Hm & _).
  unfold match_here, regex_client_name in Hm. cbn [cat fold_right exec] in Hm.
  apply rep_lazy_shortest in Hm as (w & s' & -> & Hw & Hk & Hmin).
  unfold ch in Hk, Hmin. cbn [exec] in Hk, Hmin.
  destruct s' as [|a s']; [discriminate|].
  destruct (Ascii.eqb ":" a) eqn:Ha; [|discriminate].
  destruct s' as [|sp s']; [discriminate|].
  destruct (is_space sp) eqn:Hsp; [|discriminate].
  apply Ascii.eqb_eq in Ha. subst a.
  inversion Hk as [[Hg Hr]].
  assert (Hlabel : group 1 f = (w ++ String ":" (String sp EmptyString))%string).
  { unfold group. rewrite <- Hg. unfold set_group. simpl.
    replace (w ++ String ":" (String sp s'))%string
      with ((w ++ String ":" (String sp EmptyString)) ++ s')%string
      by (now rewrite app_assoc_str).
    apply consumed_app. }
  exists w, sp. split; [exact Hlabel|]. split; [exact Hsp|]. split; [|split].
  - apply (all_not_mem is_dot); [reflexivity | exact Hw].
  - assert (Hmin' : forall w1 w2, w = (w1 ++ w2)%string -> w2 <> EmptyString ->
               match (w2 ++ String ":" (String sp s'))%string with
               | String a (String b _) => Ascii.eqb a ":" && is_space b
               | _ => false
               end = false).
    { intros w1 w2 H1 H2. specialize (Hmin w1 w2 H1 H2).
      destruct (w2 ++ String ":" (String sp s'))%string as [|a [|b r]];
        [reflexivity | reflexivity |].
      rewrite Ascii.eqb_sym.
      destruct (Ascii.eqb ":" a); [|reflexivity].
      destruct (is_space b); [discriminate | reflexivity]. }
    clear Hg Hr Hk Hlabel Hocc Hw Hmin.
    induction w as [|b w IH]; [reflexivity|].
    change ((String b w ++ String ":" EmptyString)%string)
      with (String b (w ++ String ":" EmptyString)).
    rewrite (has_colon_space_hd b w (String sp s')).
    rewrite IH.
    + rewrite orb_false_r.
      specialize (Hmin' EmptyString (String b w) eq_refl).
      change ((String b w ++ String ":" (String sp s'))%string)
        with (String b (w ++ String ":" (String sp s'))) in Hmin'.
      destruct (w ++ String ":" (String sp s'))%string as [|c rest'].
      * apply andb_false_r.
      * apply Hmin'. discriminate.
    + intros w1 w2 Hsplit Hne. apply (Hmin' (String b w1) w2); [|exact Hne].
      simpl. now rewrite Hsplit.
  - now apply occurs_contains.
Qed.

(** X3: the label client-name extraction returns is a run of characters
    without a line feed followed by a colon and one whitespace character; no
    colon followed by whitespace stands earlier in it, and it occurs as it is
    in the sentence. *)
Theorem X3_client_label_shape (sentence label : string) :
  apply_client_regex sentence = Ok label ->
  exists name sp,
    label = (name ++ String ":" (String sp EmptyString))%string
    /\ is_space sp = true
    /\ Str.mem line_feed name = false
    /\ has_colon_space (name ++ String ":" EmptyString) = false
    /\ Str.contains label sentence = true.
Proof. apply apply_client_regex_shape. Qed.

Lemma X3_client_label_shape_witness :
  exists name sp,
    "Klant: " = (name ++ String ":" (String sp EmptyString))%string
    /\ is_space sp = true
    /\ Str.mem line_feed name = false
    /\ has_colon_space (name ++ String ":" EmptyString) = false
    /\ Str.contains "Klant: " "Klant: hoi: daar" = true.
Proof.
  apply (X3_client_label_shape "Klant: hoi: daar" "Klant: ").
  vm_compute. reflexivity.
Defined.

(** X4: a span whose extracted prefix is the reserved service label is
    always taken for an agent turn: whatever the agent name was, the round
    renames the agent "Klantenservice", appends the span without the label to
    the agent turns and leaves the client turns and the client label
    alone. *)
Theorem X4_reserved_span_is_agent_turn (v : Locals) (i : nat)
    (sentence timestamp : string) :
  apply_client_regex sentence = Ok "Klantenservice: " ->
  turn_step v i sentence timestamp
  = Ok (mkLocals "Klantenservice"
          (agent_sentences v ++
           [(i, Str.replace "Klantenservice: " "" sentence, timestamp)])
          (client_sentences v) (actual_client_name v)).
Proof.
  intros H. unfold turn_step. rewrite H.
  apply apply_client_regex_shape in H as (_ & _ & _ & _ & _ & _ & Hc).
  change (resolve_alias "Klantenservice: " (agent_name v)) with "Klantenservice".
  change (agent_prefix "Klantenservice") with "Klantenservice: ".
  now rewrite Hc.
Qed.

Lemma X4_reserved_span_is_agent_turn_witness :
  turn_step (mkLocals "Jan" [] [] None) 0 "Klantenservice: hallo " "( 0s 10s )"
  = Ok (mkLocals "Klantenservice"
          ([] ++ [(0, Str.replace "Klantenservice: " "" "Klantenservice: hallo ",
                   "( 0s 10s )")])
          [] None).
Proof.
  apply (X4_reserved_span_is_agent_turn (mkLocals "Jan" [] [] None) 0
           "Klantenservice: hallo " "( 0s 10s )").
  vm_compute. reflexivity.
Defined.

(** The shape of a timestamp token. *)
Lemma timestamp_token_shape (chatlog token : string) :
  In token (apply_timestamp_regex chatlog) ->
  exists sp1 body digits sp2,
    token = String "(" (String sp1
              (body ++ digits ++ String "s" (String sp2 (String ")" EmptyString))))%string
    /\ is_space sp1 = true /\ is_space sp2 = true
    /\ Str.all is_digit digits = true
    /\ 1 <= String.length digits <= 2
    /\ String.length body <= 8.
Proof.
  unfold apply_timestamp_regex, findall0. intros H.
  apply in_map_iff in H as (f & <- & Hf).
  apply finditer_sound in Hf as (t & Hm & ->).
  unfold regex_timestamps in Hm. cbn [cat fold_right matches ch opt] in Hm.
  destruct Hm as (s1 & c1 & (a0 & -> & Ha0 & _)
                  & s2 & c2 & (sp1 & -> & Hsp1 & _)
                  & s3 & c3 & (w1 & -> & _ & _ & Hh1 & _)
                  & s4 & c4 & (w2 & -> & _ & _ & Hh2 & _)
                  & s5 & c5 & (w3 & -> & _ & _ & Hh3 & _)
                  & s6 & c6 & (w4 & -> & _ & _ & Hh4 & _)
                  & s7 & c7 & (w5 & -> & _ & _ & Hh5 & _)
                  & s8 & c8 & (w6 & -> & _ & _ & Hh6 & _)
                  & s9 & c9 & (w7 & -> & Hw7 & Hl7 & Hh7 & _)
                  & s10 & c10 & (a1 & -> & Ha1 & _)
                  & s11 & c11 & (sp2 & -> & Hsp2 & _)
                  & s12 & c12 & (a2 & -> & Ha2 & _)
                  & Hrest & _).
  apply Ascii.eqb_eq in Ha0, Ha1, Ha2. subst a0 a1 a2. rewrite Hrest.
  exists sp1, (w1 ++ w2 ++ w3 ++ w4 ++ w5 ++ w6)%string, w7, sp2.
  split; [|repeat split; auto; try lia; rewrite !length_app; lia].
  match goal with
  | |- consumed ?u _ = ?v =>
      replace u with (v ++ s12)%string; [apply consumed_app|]
  end.
  simpl. rewrite !app_assoc_str. reflexivity.
Qed.

(** X5: every timestamp token is an opening parenthesis and a whitespace
    character, at most eight further characters, one or two digits, then
    "s", a whitespace character and the closing parenthesis: between 6 and
    15 characters in all. *)
Theorem X5_timestamp_token_shape (chatlog token : string) :
  In token (apply_timestamp_regex chatlog) ->
  (exists sp1 body digits sp2,
      token = String "(" (String sp1
                (body ++ digits ++ String "s" (String sp2 (String ")" EmptyString))))%string
      /\ is_space sp1 = true /\ is_space sp2 = true
      /\ Str.all is_digit digits = true
      /\ 1 <= String.length digits <= 2
      /\ String.length body <= 8)
  /\ 6 <= String.length token <= 15.
Proof.
  intros H. pose proof (timestamp_token_shape _ _ H)
    as (sp1 & body & digits & sp2 & Ht & H1 & H2 & H3 & H4 & H5).
  split; [now exists sp1, body, digits, sp2|].
  rewrite Ht. simpl. rewrite !length_app. simpl. lia.
Qed.

Lemma X5_timestamp_token_shape_witness :
  (exists sp1 body digits sp2,
      "( 12m 5s )" = String "(" (String sp1
                (body ++ digits ++ String "s" (String sp2 (String ")" EmptyString))))%string
      /\ is_space sp1 = true /\ is_space sp2 = true
      /\ Str.all is_digit digits = true
      /\ 1 <= String.length digits <= 2
      /\ String.length body <= 8)
  /\ 6 <= String.length "( 12m 5s )" <= 15.
Proof.
  apply (X5_timestamp_token_shape "Agent Jan ( 12m 5s ) Klant: hoi").
  vm_compute. now left.
Defined.

Lemma select_sentences_in (spans : list (string * string)) (sentence : string) :
  In sentence (select_sentences spans) ->
  exists span, In span spans /\ (sentence = fst span \/ sentence = snd span).
Proof.
  induction spans as [|span spans IH]; simpl; [contradiction|].
  intros H. apply in_app_or in H as [H|H]; [|apply in_app_or in H as [H|H]].
  - destruct (String.eqb (fst span) ""); [|contradiction].
    destruct H as [<-|[]]. exists span. auto.
  - destruct (String.eqb (snd span) ""); [|contradiction].
    destruct H as [<-|[]]. exists span. auto.
  - destruct (IH H) as (sp & Hin & Hs). exists sp. auto.
Qed.

(** X6: nothing is normalised on the way: in every pair the loop of
    line 123 walks through, the sentence and the timestamp token both occur
    as they are in the transcript. *)
Theorem X6_pairs_occur_verbatim (chatlog sentence timestamp : string) :
  In (sentence, timestamp) (paired chatlog) ->
  Str.contains sentence chatlog = true /\ Str.contains timestamp chatlog = true.
Proof.
  unfold paired. intros H. split.
  - apply in_combine_l in H. apply select_sentences_in in H as (span & Hin & Hs).
    unfold apply_chat_sentence_regex, findall2 in Hin.
    apply in_map_iff in Hin as (f & <- & Hf).
    apply finditer_occurs in Hf as [_ Hg]. simpl in Hs.
    apply occurs_contains. destruct Hs as [-> | ->]; apply Hg.
  - apply in_combine_r in H. unfold apply_timestamp_regex, findall0 in H.
    apply in_map_iff in H as (f & <- & Hf).
    apply finditer_occurs in Hf as [Hw _]. now apply occurs_contains.
Qed.

Lemma X6_pairs_occur_verbatim_witness :
  Str.contains "Klant: hoi "
    "Agent Jan zei: ( 0s 10s ) Klant: hoi ( 10s 20s ) Jan: hallo" = true
  /\ Str.contains "( 0s 10s )"
       "Agent Jan zei: ( 0s 10s ) Klant: hoi ( 10s 20s ) Jan: hallo" = true.
Proof.
  apply (X6_pairs_occur_verbatim
           "Agent Jan zei: ( 0s 10s ) Klant: hoi ( 10s 20s ) Jan: hallo").
  vm_compute. now left.
Defined.

(** What a match of the span pattern holds: through the first alternative
    an interior text without a line feed, through the second a trailing text
    without a line feed that runs to the end of the input. *)
Lemma span_match_cases (s : string) (f : found) :
  In f (finditer regex_with_last_response s) ->
  (exists w, groups f 1 = Some w /\ groups f 2 = None
             /\ Str.all is_dot w = true)
  \/ (exists w, groups f 1 = None /\ groups f 2 = Some w
                /\ Str.all is_dot w = true /\ at_end (rest f) = true).
Proof.
  intros H. apply finditer_sound in H as (t & Hm & _).
  unfold regex_with_last_response in Hm. cbn [matches] in Hm.
  destruct Hm as [Hm|Hm].
  - left. pose proof Hm as H2. apply (matches_frame 2) in H2; [|reflexivity].
    cbn [cat fold_right matches ch opt] in Hm.
    destruct Hm as (s1 & c1 & (w1 & _ & _ & _ & _ & ->)
                    & s2 & c2 & (w2 & _ & _ & _ & _ & ->)
                    & s3 & c3 & (w3 & _ & _ & _ & _ & ->)
                    & s4 & c4 & (w4 & _ & _ & _ & _ & ->)
                    & s5 & c5 & (a1 & _ & _ & ->)
                    & s6 & c6 & (a2 & _ & _ & ->)
                    & s7 & c7 & (a3 & _ & _ & ->)
                    & s8 & c8 & (a4 & _ & _ & ->)
                    & s9 & c9 & (c9' & (w & -> & Hw & _ & _ & ->) & ->)
                    & s10 & c10 & (a5 & _ & _ & ->)
                    & s11 & c11 & (a6 & _ & _ & ->)
                    & _ & Hc).
    exists w. rewrite Hc in *. rewrite consumed_app.
    unfold set_group. simpl. auto.
  - right. pose proof Hm as H1. apply (matches_frame 1) in H1; [|reflexivity].
    cbn [cat fold_right matches ch opt] in Hm.
    destruct Hm as (s1 & c1 & (a1 & _ & _ & ->)
                    & s2 & c2 & (a2 & _ & _ & ->)
                    & s3 & c3 & (a3 & _ & _ & ->)
                    & s4 & c4 & (c4' & (s5 & c5 & (w & -> & Hw & _ & _ & ->)
                                        & s6 & c6 & (-> & -> & Hend)
                                        & -> & ->) & ->)
                    & Hrest & Hc).
    exists w. rewrite Hc in *. rewrite Hrest. rewrite consumed_app.
    unfold set_group. simpl. auto.
Qed.

(** X7: no slot of a span holds a line feed, and a span with text in its
    trailing slot is the last one the extractor returns. *)
Theorem X7_spans_single_line_trailing_last (chatlog : string) :
  (forall span, In span (apply_chat_sentence_regex chatlog) ->
     Str.mem line_feed (fst span) = false /\ Str.mem line_feed (snd span) = false)
  /\ (forall before span after,
        apply_chat_sentence_regex chatlog = before ++ span :: after ->
        snd span <> "" -> after = []).
Proof.
  unfold apply_chat_sentence_regex, findall2. split.
  - intros span H. apply in_map_iff in H as (f & <- & Hf). simpl. unfold group.
    destruct (span_match_cases _ _ Hf)
      as [(w & -> & -> & Hw)|(w & -> & -> & Hw & _)];
      split; try reflexivity; now apply (all_not_mem is_dot).
  - intros before span after H Hne.
    apply map_eq_app in H as (l1 & l2 & Hl & _ & H2).
    apply map_eq_cons in H2 as (f & l3 & -> & <- & <-).
    assert (Hf : In f (finditer regex_with_last_response chatlog))
      by (rewrite Hl; apply in_or_app; right; now left).
    unfold finditer in Hl.
    apply finditer_rounds_split in Hl as (m & ->).
    simpl in Hne. unfold group in Hne.
    destruct (span_match_cases _ _ Hf)
      as [(w & _ & H2 & _)|(w & _ & _ & _ & Hend)];
      [rewrite H2 in Hne; congruence|].
    destruct m as [|m]; [reflexivity|]. simpl.
    rewrite search_short; [reflexivity|].
    destruct (rest f) as [|a [|b r]]; simpl in *; try discriminate; lia.
Qed.

Lemma select_sentences_length (spans : list (string * string)) :
  (forall span, In span spans -> fst span = "" \/ snd span = "") ->
  List.length (select_sentences spans)
  = List.length spans + List.length (filter both_empty spans).
Proof.
  induction spans as [|[a b] spans IH]; intros H; [reflexivity|].
  cbn [select_sentences filter fst snd]. unfold both_empty at 1. simpl fst. simpl snd.
  rewrite !List.length_app, IH by (intros; apply H; now right).
  destruct (String.eqb a "") eqn:Ea, (String.eqb b "") eqn:Eb; simpl; try lia.
  apply String.eqb_neq in Ea, Eb.
  destruct (H (a, b)) as [H1|H1]; simpl in *; auto; congruence.
Qed.

(** X8: the two tests of lines 111-115 are independent, so a span with both
    slots empty yields two empty sentences and every other span one: there
    are as many sentences as spans plus spans with both slots empty. *)
Theorem X8_sentences_per_span (chatlog : string) :
  List.length (select_sentences (apply_chat_sentence_regex chatlog))
  = List.length (apply_chat_sentence_regex chatlog)
    + List.length (filter both_empty (apply_chat_sentence_regex chatlog)).
Proof.
  apply select_sentences_length. apply apply_chat_sentence_regex_slots.
Qed.

(** ** The turns of a dialogue *)

(** What the loop over the pairs adds: one turn for each pair, in order,
    with the pair's timestamp and the pair's sentence less a prefix; the
    client label afterwards is the prefix of the last client turn added. *)
Lemma turn_loop_turns (pairs : list (string * string)) :
  forall i v v',
    turn_loop i pairs v = Ok v' ->
    exists new_a new_c,
      agent_sentences v' = agent_sentences v ++ new_a
      /\ client_sentences v' = client_sentences v ++ new_c
      /\ Permutation (map turn_index new_a ++ map turn_index new_c)
                     (seq i (List.length pairs))
      /\ ascending_from i (map turn_index new_a)
      /\ ascending_from i (map turn_index new_c)
      /\ (forall j text ts, In (j, text, ts) new_a ->
            i <= j
            /\ exists sentence name,
                 nth_error pairs (j - i) = Some (sentence, ts)
                 /\ Str.contains (agent_prefix name) sentence = true
                 /\ text = Str.replace (agent_prefix name) "" sentence)
      /\ (forall j text ts, In (j, text, ts) new_c ->
            i <= j
            /\ exists sentence client_name,
                 nth_error pairs (j - i) = Some (sentence, ts)
                 /\ apply_client_regex sentence = Ok client_name
                 /\ text = Str.replace client_name "" sentence)
      /\ (new_c = [] -> actual_client_name v' = actual_client_name v)
      /\ (forall earlier j text ts, new_c = earlier ++ [(j, text, ts)] ->
            exists sentence,
              nth_error pairs (j - i) = Some (sentence, ts)
              /\ apply_client_regex sentence = Ok
                   match actual_client_name v' with
                   | Some label => label
                   | None => EmptyString
                   end
              /\ actual_client_name v' <> None).
Proof.
  induction pairs as [|[s t] more IH]; simpl; intros i v v' H.
  - inversion H; subst v'. exists [], []. rewrite !app_nil_r.
    split; [reflexivity|]. split; [reflexivity|].
    split; [constructor|]. split; [exact I|]. split; [exact I|].
    split; [intros j text ts []|]. split; [intros j text ts []|].
    split; [reflexivity|].
    intros [|e0 earlier] j text ts Habs; discriminate.
  - destruct (turn_step_cases v i s t) as [[_ E]|(cn & Hcn & Hcase)];
      [rewrite E in H; discriminate|].
    cbv zeta in Hcase. destruct Hcase as [[Hc E]|[Hc E]]; rewrite E in H;
      apply IH in H
        as (new_a & new_c & Ha & Hcl & Hperm & Hasc_a & Hasc_c & Hpa & Hpc
            & Hnone & Hlast);
      simpl in Ha, Hcl, Hnone.
    + exists ((i, Str.replace (agent_prefix (resolve_alias cn (agent_name v))) "" s, t)
              :: new_a), new_c.
      rewrite Ha, <- app_assoc. simpl.
      split; [reflexivity|]. split; [exact Hcl|].
      split; [now constructor|].
      split; [split; [unfold turn_index; simpl; lia | exact Hasc_a]|].
      split; [eapply ascending_from_weaken; [|exact Hasc_c]; lia|].
      split; [|split; [|split]].
      * intros j text ts [Heq|Hin].
        -- inversion Heq; subst j text ts. split; [lia|].
           exists s, (resolve_alias cn (agent_name v)).
           rewrite Nat.sub_diag. simpl. auto.
        -- destruct (Hpa _ _ _ Hin) as (Hle & sentence & name & Hn & Hrest).
           split; [lia|]. exists sentence, name. split; [|exact Hrest].
           replace (j - i) with (S (j - S i)) by lia. exact Hn.
      * intros j text ts Hin.
        destruct (Hpc _ _ _ Hin) as (Hle & sentence & name & Hn & Hrest).
        split; [lia|]. exists sentence, name. split; [|exact Hrest].
        replace (j - i) with (S (j - S i)) by lia. exact Hn.
      * exact Hnone.
      * intros earlier j text ts Heq.
        assert (Hin : In (j, text, ts) new_c)
          by (rewrite Heq; apply in_or_app; right; now left).
        destruct (Hpc _ _ _ Hin) as (Hle & _).
        destruct (Hlast _ _ _ _ Heq) as (sentence & Hn & Hrest).
        exists sentence. split; [|exact Hrest].
        replace (j - i) with (S (j - S i)) by lia. exact Hn.
    + exists new_a, ((i, Str.replace cn "" s, t) :: new_c).
      rewrite Hcl, <- app_assoc. simpl.
      split; [exact Ha|]. split; [reflexivity|].
      split; [apply Permutation_sym, Permutation_cons_app, Permutation_sym;
              exact Hperm|].
      split; [eapply ascending_from_weaken; [|exact Hasc_a]; lia|].
      split; [split; [unfold turn_index; simpl; lia | exact Hasc_c]|].
      split; [|split; [|split]].
      * intros j text ts Hin.
        destruct (Hpa _ _ _ Hin) as (Hle & sentence & name & Hn & Hrest).
        split; [lia|]. exists sentence, name. split; [|exact Hrest].
        replace (j - i) with (S (j - S i)) by lia. exact Hn.
      * intros j text ts [Heq|Hin].
        -- inversion Heq; subst j text ts. split; [lia|].
           exists s, cn. rewrite Nat.sub_diag. simpl. auto.
        -- destruct (Hpc _ _ _ Hin) as (Hle & sentence & name & Hn & Hrest).
           split; [lia|]. exists sentence, name. split; [|exact Hrest].
           replace (j - i) with (S (j - S i)) by lia. exact Hn.
      * discriminate.
      * intros [|e0 earlier] j text ts Heq; simpl in Heq.
        -- inversion Heq; subst.
           rewrite (Hnone eq_refl). exists s. rewrite Nat.sub_diag. simpl.
           repeat split; auto. discriminate.
        -- inversion Heq as [[He0 Hnew]].
           assert (Hin : In (j, text, ts) new_c)
             by (rewrite Hnew; apply in_or_app; right; now left).
           destruct (Hpc _ _ _ Hin) as (Hle & _).
           destruct (Hlast _ _ _ _ Hnew) as (sentence & Hn & Hrest).
           exists sentence. split; [|exact Hrest].
           replace (j - i) with (S (j - S i)) by lia. exact Hn.
Qed.

(** A built dialogue in terms of the loop's result. *)
Lemma build_dialogue_turns (chatlog : string) (carried carried' : option string)
    (d : DialogueMap) :
  apply_agent_regex chatlog <> "No agent" -> label_ok carried ->
  build_dialogue (apply_agent_regex chatlog) chatlog carried = Ok (d, carried') ->
  exists v name label,
    turn_loop 0 (paired chatlog)
      (mkLocals (apply_agent_regex chatlog) [] [] carried) = Ok v
    /\ d = [(name, agent_sentences v); (label, client_sentences v)]
    /\ actual_client_name v = Some label /\ carried' = Some label.
Proof.
  intros Hagent Hcar Hb.
  pose proof (build_dialogue_shape _ _ _ _ _
                (apply_agent_regex_no_colon _ Hagent) Hcar Hb)
    as (name & label & a & c & Hd & Hne & _).
  unfold build_dialogue in Hb.
  destruct (turn_loop 0 (paired chatlog)
              (mkLocals (apply_agent_regex chatlog) [] [] carried))
    as [v|e] eqn:E; [|discriminate].
  destruct (actual_client_name v) as [l|] eqn:L; [|discriminate].
  inversion Hb as [[Hd' Hc']]. exists v, (agent_name v), l.
  repeat split; auto. simpl in Hd' |- *.
  destruct (String.eqb (agent_name v) l) eqn:Eq; [|reflexivity].
  exfalso. rewrite Hd in Hd'. discriminate.
Qed.

(** X9: in a dialogue that is built, every pair of the transcript is one
    turn: the ordinal indices of the agent turns and of the client turns
    together are 0 .. n-1 for the n pairs, each once, and within each of
    the two lists the indices increase. *)
Theorem X9_turn_indices_partition (chatlog : string) (carried carried' : option string)
    (d : DialogueMap) :
  apply_agent_regex chatlog <> "No agent" -> label_ok carried ->
  build_dialogue (apply_agent_regex chatlog) chatlog carried = Ok (d, carried') ->
  exists name label a_turns c_turns,
    d = [(name, a_turns); (label, c_turns)]
    /\ Permutation (map turn_index a_turns ++ map turn_index c_turns)
                   (seq 0 (List.length (paired chatlog)))
    /\ ascending_from 0 (map turn_index a_turns)
    /\ ascending_from 0 (map turn_index c_turns).
Proof.
  intros Hagent Hcar Hb.
  destruct (build_dialogue_turns _ _ _ _ Hagent Hcar Hb)
    as (v & name & label & Hv & -> & _ & _).
  apply turn_loop_turns in Hv
    as (new_a & new_c & Ha & Hc & Hperm & Hasc_a & Hasc_c & _).
  simpl in Ha, Hc.
  exists name, label, (agent_sentences v), (client_sentences v).
  rewrite Ha, Hc. auto.
Qed.

Lemma X9_turn_indices_partition_witness :
  exists name label a_turns c_turns,
    [("Jan", [(1, "hallo", "( 10s 20s )")]); ("Klant: ", [(0, "hoi ", "( 0s 10s )")])]
    = [(name, a_turns); (label, c_turns)]
    /\ Permutation (map turn_index a_turns ++ map turn_index c_turns)
         (seq 0 (List.length
                   (paired "Agent Jan zei: ( 0s 10s ) Klant: hoi ( 10s 20s ) Jan: hallo")))
    /\ ascending_from 0 (map turn_index a_turns)
    /\ ascending_from 0 (map turn_index c_turns).
Proof.
  apply (X9_turn_indices_partition
           "Agent Jan zei: ( 0s 10s ) Klant: hoi ( 10s 20s ) Jan: hallo"
           None (Some "Klant: ")).
  - vm_compute. discriminate.
  - intros label H. discriminate.
  - vm_compute. reflexivity.
Defined.

(** X10: a turn with index j carries the timestamp of the j-th pair, and its
    text is the sentence of that pair with every occurrence of a prefix
    taken out: of an agent prefix "<name>: " the sentence holds, for an
    agent turn, and of the sentence's own extracted client prefix, for a
    client turn. *)
Theorem X10_turn_comes_from_its_pair (chatlog : string)
    (carried carried' : option string) (d : DialogueMap) :
  apply_agent_regex chatlog <> "No agent" -> label_ok carried ->
  build_dialogue (apply_agent_regex chatlog) chatlog carried = Ok (d, carried') ->
  exists name label a_turns c_turns,
    d = [(name, a_turns); (label, c_turns)]
    /\ (forall j text ts, In (j, text, ts) a_turns ->
          exists sentence agent,
            nth_error (paired chatlog) j = Some (sentence, ts)
            /\ Str.contains (agent_prefix agent) sentence = true
            /\ text = Str.replace (agent_prefix agent) "" sentence)
    /\ (forall j text ts, In (j, text, ts) c_turns ->
          exists sentence client_name,
            nth_error (paired chatlog) j = Some (sentence, ts)
            /\ apply_client_regex sentence = Ok client_name
            /\ text = Str.replace client_name "" sentence).
Proof.
  intros Hagent Hcar Hb.
  destruct (build_dialogue_turns _ _ _ _ Hagent Hcar Hb)
    as (v & name & label & Hv & -> & _ & _).
  apply turn_loop_turns in Hv
    as (new_a & new_c & Ha & Hc & _ & _ & _ & Hpa & Hpc & _).
  simpl in Ha, Hc.
  exists name, label, (agent_sentences v), (client_sentences v).
  rewrite Ha, Hc. split; [reflexivity|]. split.
  - intros j text ts Hin.
    destruct (Hpa _ _ _ Hin) as (_ & sentence & nm & Hn & Hrest).
    rewrite Nat.sub_0_r in Hn. eauto.
  - intros j text ts Hin.
    destruct (Hpc _ _ _ Hin) as (_ & sentence & nm & Hn & Hrest).
    rewrite Nat.sub_0_r in Hn. eauto.
Qed.

Lemma X10_turn_comes_from_its_pair_witness :
  exists name label a_turns c_turns,
    [("Jan", [(1, "hallo", "( 10s 20s )")]); ("Klant: ", [(0, "hoi ", "( 0s 10s )")])]
    = [(name, a_turns); (label, c_turns)]
    /\ (forall j text ts, In (j, text, ts) a_turns ->
          exists sentence agent,
            nth_error
              (paired "Agent Jan zei: ( 0s 10s ) Klant: hoi ( 10s 20s ) Jan: hallo") j
            = Some (sentence, ts)
            /\ Str.contains (agent_prefix agent) sentence = true
            /\ text = Str.replace (agent_prefix agent) "" sentence)
    /\ (forall j text ts, In (j, text, ts) c_turns ->
          exists sentence client_name,
            nth_error
              (paired "Agent Jan zei: ( 0s 10s ) Klant: hoi ( 10s 20s ) Jan: hallo") j
            = Some (sentence, ts)
            /\ apply_client_regex sentence = Ok client_name
            /\ text = Str.replace client_name "" sentence).
Proof.
  apply (X10_turn_comes_from_its_pair
           "Agent Jan zei: ( 0s 10s ) Klant: hoi ( 10s 20s ) Jan: hallo"
           None (Some "Klant: ")).
  - vm_compute. discriminate.
  - intros label H. discriminate.
  - vm_compute. reflexivity.
Defined.

(** X11: the last client turn names the client.  The client key of a built
    dialogue is the prefix extracted from the sentence of its last client
    turn, whatever the prefixes of the earlier client turns were; with no
    client turn it is the label carried over.  That key is the label handed
    on to the next transcript. *)
Theorem X11_last_client_turn_names_the_key (chatlog : string)
    (carried carried' : option string) (d : DialogueMap) :
  apply_agent_regex chatlog <> "No agent" -> label_ok carried ->
  build_dialogue (apply_agent_regex chatlog) chatlog carried = Ok (d, carried') ->
  exists name label a_turns c_turns,
    d = [(name, a_turns); (label, c_turns)]
    /\ carried' = Some label
    /\ (c_turns = [] -> carried = Some label)
    /\ (forall earlier j text ts,
          c_turns = earlier ++ [(j, text, ts)] ->
          exists sentence,
            nth_error (paired chatlog) j = Some (sentence, ts)
            /\ apply_client_regex sentence = Ok label).
Proof.
  intros Hagent Hcar Hb.
  destruct (build_dialogue_turns _ _ _ _ Hagent Hcar Hb)
    as (v & name & label & Hv & -> & Hl & ->).
  apply turn_loop_turns in Hv
    as (new_a & new_c & Ha & Hc & _ & _ & _ & _ & _ & Hnone & Hlast).
  simpl in Ha, Hc, Hnone.
  exists name, label, (agent_sentences v), (client_sentences v).
  rewrite Hc. repeat split; auto.
  - intros Hnil. rewrite <- Hl. symmetry. now apply Hnone.
  - intros earlier j text ts Heq.
    destruct (Hlast _ _ _ _ Heq) as (sentence & Hn & Hcn & _).
    rewrite Hl in Hcn. rewrite Nat.sub_0_r in Hn. eauto.
Qed.

Lemma X11_last_client_turn_names_the_key_witness :
  exists name label a_turns c_turns,
    [("Jan", []);
     ("Piet: ", [(0, "hoi ", "( 1s )"); (1, "dag", "( 2s )")])]
    = [(name, a_turns); (label, c_turns)]
    /\ Some "Piet: " = Some label
    /\ (c_turns = [] -> None = Some label)
    /\ (forall earlier j text ts,
          c_turns = earlier ++ [(j, text, ts)] ->
          exists sentence,
            nth_error (paired "Agent Jan ( 1s ) Klant: hoi ( 2s ) Piet: dag") j
            = Some (sentence, ts)
            /\ apply_client_regex sentence = Ok label).
Proof.
  apply (X11_last_client_turn_names_the_key
           "Agent Jan ( 1s ) Klant: hoi ( 2s ) Piet: dag" None (Some "Piet: ")).
  - vm_compute. discriminate.
  - intros label H. discriminate.
  - vm_compute. reflexivity.
Defined.

(** ** How building a dialogue ends *)

Lemma well_prefixed_false (pairs : list (string * string)) :
  well_prefixed pairs = false ->
  exists s t, In (s, t) pairs /\ has_colon_space s = false.
Proof.
  unfold well_prefixed. induction pairs as [|[s t] more IH]; simpl; [discriminate|].
  intros H. apply andb_false_iff in H as [H|H].
  - exists s, t. auto.
  - destruct (IH H) as (s' & t' & Hin & Hs). exists s', t'. auto.
Qed.

Lemma well_prefixed_true (pairs : list (string * string)) :
  well_prefixed pairs = true ->
  forall s t, In (s, t) pairs -> has_colon_space s = true.
Proof.
  unfold well_prefixed. intros H s t Hin.
  rewrite forallb_forall in H. exact (H (s, t) Hin).
Qed.

(** X12: how building a dialogue ends is decided by the pairs and the
    carried label alone.  It raises IndexError exactly when some paired
    sentence has no colon followed by whitespace; otherwise it raises
    NameError exactly when every pair is an agent turn and no label is
    carried over; otherwise it returns.  It raises nothing else. *)
Theorem X12_build_dialogue_outcomes (agent chatlog : string)
    (carried : option string) :
  match build_dialogue agent chatlog carried with
  | Error IndexError => well_prefixed (paired chatlog) = false
  | Error NameError =>
      well_prefixed (paired chatlog) = true
      /\ carried = None /\ monologue agent (paired chatlog) = true
  | Error _ => False
  | Ok _ =>
      well_prefixed (paired chatlog) = true
      /\ (carried <> None \/ monologue agent (paired chatlog) = false)
  end.
Proof.
  destruct (well_prefixed (paired chatlog)) eqn:F.
  - pose proof (well_prefixed_true _ F) as Hall.
    destruct (turn_loop_returns (paired chatlog) 0
                (mkLocals agent [] [] carried) Hall) as (v & Hv & Hbound).
    simpl in Hbound. unfold build_dialogue. rewrite Hv.
    destruct (monologue agent (paired chatlog)) eqn:M.
    + destruct (turn_loop_monologue (paired chatlog) 0
                  (mkLocals agent [] [] carried) M) as (v2 & Hv2 & _ & Hacn).
      rewrite Hv in Hv2. inversion Hv2; subst v2. simpl in Hacn. rewrite Hacn.
      destruct carried; [split; [reflexivity | left; discriminate]|].
      repeat split.
    + specialize (Hbound eq_refl).
      destruct (actual_client_name v); [|congruence].
      split; [reflexivity | now right].
  - destruct (well_prefixed_false _ F) as (s & t & Hin & Hs).
    unfold build_dialogue.
    rewrite (turn_loop_malformed _ 0 (mkLocals agent [] [] carried) _ _ Hin Hs).
    reflexivity.
Qed.

(** ** Whole calls on a new object *)

Lemma dict_set_new {V : Type} (k : nat) (v : V) (d : list (nat * V)) :
  ~ In k (Dict.keys d) -> Dict.set Nat.eqb k v d = d ++ [(k, v)].
Proof.
  unfold Dict.keys. induction d as [|[k0 v0] d IH]; simpl; intros H; [reflexivity|].
  destruct (Nat.eqb k0 k) eqn:E.
  - apply Nat.eqb_eq in E. tauto.
  - rewrite IH by tauto. reflexivity.
Qed.

Lemma dict_set_keys_grow {V : Type} (k : nat) (v : V) (d : list (nat * V)) :
  exists more, Dict.keys (Dict.set Nat.eqb k v d) = Dict.keys d ++ more.
Proof.
  unfold Dict.keys. induction d as [|[k0 v0] d (more & IH)]; simpl.
  - now exists [k].
  - destruct (Nat.eqb k0 k); simpl.
    + exists []. now rewrite app_nil_r.
    + exists more. now rewrite IH.
Qed.

Lemma ascending_from_app (i : nat) (l1 l2 : list nat) :
  ascending_from i l1 ->
  (forall k, In k l1 -> forall k', In k' l2 -> k < k') ->
  (forall j, (forall k, In k l1 -> k < j) -> i <= j -> ascending_from j l2) ->
  ascending_from i (l1 ++ l2).
Proof.
  revert i. induction l1 as [|k l1 IH]; simpl; intros i H1 Hlt H2.
  - apply H2; [intros k [] | lia].
  - destruct H1 as [Hik H1]. split; [exact Hik|].
    apply IH; auto.
    intros j Hj Hle. apply H2; [|lia].
    intros k0 [<-|Hk0]; [lia | auto].
Qed.

Lemma ascending_from_NoDup (i : nat) (l : list nat) :
  ascending_from i l -> NoDup l.
Proof.
  revert i. induction l as [|k l IH]; simpl; intros i H; constructor.
  - destruct H as [_ H]. intros Hin.
    apply (ascending_from_lower _ _ H) in Hin. lia.
  - destruct H as [_ H]. eauto.
Qed.

Lemma with_agent_cons (i : nat) (chatlog : string) (more : list string) :
  with_agent i (chatlog :: more)
  = if agentless chatlog then with_agent (S i) more
    else (i, chatlog) :: with_agent (S i) more.
Proof.
  unfold with_agent, enumerate_from. simpl.
  now destruct (agentless chatlog).
Qed.

(** A run of the loop that returns, on an object whose [chat_dict] holds
    only keys below the first index: the dialogues are appended under the
    indices of the transcripts with an agent, the others are logged, in
    order. *)
Lemma acquire_loop_fresh (logs : list string) :
  forall i carried self self',
    (forall k, In k (Dict.keys (chat_dict self)) -> k < i) ->
    acquire_loop i logs carried self = Return tt self' ->
    exists entries,
      chat_dict self' = chat_dict self ++ entries
      /\ map fst entries = map fst (with_agent i logs)
      /\ ascending_from i (map fst entries)
      /\ agent_error_logs self' = agent_error_logs self ++ filter agentless logs
      /\ client_error_logs self' = client_error_logs self
      /\ chatlogs self' = chatlogs self.
Proof.
  induction logs as [|chatlog more IH]; intros i carried self self' Hkeys H.
  - simpl in H. inversion H; subst self'. exists [].
    rewrite !app_nil_r. repeat split; auto.
  - simpl in H. rewrite with_agent_cons. cbn [filter].
    change (String.eqb (apply_agent_regex chatlog) "No agent")
      with (agentless chatlog) in H.
    destruct (agentless chatlog) eqn:Eag.
    + unfold bind, log_agent_error in H.
      apply IH in H as (entries & Hd & Hk & Hasc & Ha & Hc & Hl);
        [|simpl; intros k Hk; apply Hkeys in Hk; lia].
      simpl in *. exists entries. repeat split; auto.
      * eapply ascending_from_weaken; [|exact Hasc]. lia.
      * now rewrite Ha, <- app_assoc.
    + destruct (build_dialogue (apply_agent_regex chatlog) chatlog carried)
        as [[d0 c0]|e]; [|discriminate].
      unfold bind, store_dialogue in H.
      apply IH in H as (entries & Hd & Hk & Hasc & Ha & Hc & Hl).
      * simpl in *. exists ((i, d0) :: entries).
        rewrite dict_set_new in Hd
          by (intros Hin; apply Hkeys in Hin; lia).
        rewrite <- app_assoc in Hd. simpl in *.
        repeat split; auto. now f_equal.
      * simpl. intros k Hk. apply dict_set_keys in Hk as [->|Hk]; [lia|].
        apply Hkeys in Hk. lia.
Qed.

(** The loop raises nothing but IndexError and NameError, and whichever way
    it ends it leaves the transcripts and [client_error_logs] alone and only
    appends to [agent_error_logs] and to the keys of [chat_dict]. *)
Lemma acquire_loop_grows (logs : list string) :
  forall i carried self,
    chatlogs (final_state (acquire_loop i logs carried self)) = chatlogs self
    /\ client_error_logs (final_state (acquire_loop i logs carried self))
       = client_error_logs self
    /\ (exists more,
          agent_error_logs (final_state (acquire_loop i logs carried self))
          = agent_error_logs self ++ more)
    /\ (exists more,
          Dict.keys (chat_dict (final_state (acquire_loop i logs carried self)))
          = Dict.keys (chat_dict self) ++ more)
    /\ (forall e self', acquire_loop i logs carried self = Raise e self' ->
          e = IndexError \/ e = NameError).
Proof.
  induction logs as [|chatlog more IH]; intros i carried self.
  - simpl. repeat split; try (exists []; now rewrite app_nil_r). discriminate.
  - simpl.
    destruct (String.eqb (apply_agent_regex chatlog) "No agent").
    + unfold bind, log_agent_error.
      match goal with
      | |- context [acquire_loop (S i) more carried ?st] =>
          destruct (IH (S i) carried st) as (H1 & H2 & (m3 & H3) & (m4 & H4) & H5);
          destruct (acquire_loop (S i) more carried st) as [[] s1|e s1] eqn:E
      end; simpl in *;
        (split; [exact H1|]; split; [exact H2|];
         split; [exists (chatlog :: m3); now rewrite H3, <- app_assoc|];
         split; [exists m4; exact H4|]).
      * discriminate.
      * intros e0 s0 He. inversion He; subst. eapply H5. reflexivity.
    + destruct (build_dialogue (apply_agent_regex chatlog) chatlog carried)
        as [[d0 c0]|e] eqn:Eb.
      * unfold bind, store_dialogue.
        match goal with
        | |- context [acquire_loop (S i) more c0 ?st] =>
            destruct (IH (S i) c0 st) as (H1 & H2 & (m3 & H3) & (m4 & H4) & H5);
            destruct (acquire_loop (S i) more c0 st) as [[] s1|e s1] eqn:E
        end; simpl in *;
          destruct (dict_set_keys_grow i d0 (chat_dict self)) as (m0 & Hm0);
          (split; [exact H1|]; split; [exact H2|];
           split; [exists m3; exact H3|];
           split; [exists (m0 ++ m4); now rewrite H4, Hm0, <- app_assoc|]).
        -- discriminate.
        -- intros e0 s0 He. inversion He; subst. eapply H5. reflexivity.
      * unfold raise. simpl.
        repeat split; try (exists []; now rewrite app_nil_r).
        intros e0 s0 He. inversion He; subst e0.
        unfold build_dialogue in Eb.
        destruct (turn_loop 0 (paired chatlog)
                    (mkLocals (apply_agent_regex chatlog) [] [] carried))
          as [v|e1] eqn:Et.
        -- destruct (actual_client_name v); inversion Eb. now right.
        -- inversion Eb; subst e1. left. eapply turn_loop_error. exact Et.
Qed.

(** The check for missing clients logs the keys of the dialogues whose
    client list is empty, in the order of [chat_dict]. *)
Lemma client_check_loop_logged (items : Corpus) :
  forall self self',
    client_check_loop items self = Return tt self' ->
    client_error_logs self'
    = client_error_logs self
      ++ map fst (filter (fun kv => client_empty (snd kv)) items)
    /\ chat_dict self' = chat_dict self
    /\ agent_error_logs self' = agent_error_logs self
    /\ chatlogs self' = chatlogs self.
Proof.
  induction items as [|[key dialogue] more IH]; intros self self' H.
  - simpl in H. inversion H; subst self'. simpl. now rewrite app_nil_r.
  - simpl in H |- *. unfold client_empty at 1. simpl snd.
    destruct (Dict.keys dialogue) as [|CSM [|KLT [|x l]]]; try discriminate.
    destruct (Dict.get String.eqb KLT dialogue) as [turns|]; [|discriminate].
    unfold bind in H.
    destruct (Nat.eqb (List.length turns) 0).
    + unfold log_client_error in H. apply IH in H as (Hc & Hd & Ha & Hl).
      simpl in *. rewrite Hc, <- app_assoc. auto.
    + unfold ret in H. apply IH in H. exact H.
Qed.

(** On dialogues with two distinct keys the check never raises. *)
Lemma client_check_loop_total (items : Corpus) :
  (forall k d, In (k, d) items ->
     exists name a label c, d = [(name, a); (label, c)] /\ name <> label) ->
  forall self, exists self', client_check_loop items self = Return tt self'.
Proof.
  induction items as [|[key dialogue] more IH]; intros Hshape self.
  - exists self. reflexivity.
  - destruct (Hshape key dialogue) as (name & a & label & c & -> & Hne);
      [now left|].
    simpl. apply String.eqb_neq in Hne. rewrite Hne, String.eqb_refl.
    unfold bind.
    assert (Hmore : forall k d, In (k, d) more ->
              exists name a label c, d = [(name, a); (label, c)] /\ name <> label)
      by (intros k d Hin; apply (Hshape k d); now right).
    destruct (Nat.eqb (List.length c) 0); [unfold log_client_error | unfold ret];
      apply (IH Hmore).
Qed.

Lemma client_empty_shape (name label : string) (a c : list Turn) :
  name <> label ->
  client_empty [(name, a); (label, c)] = Nat.eqb (List.length c) 0.
Proof.
  intros Hne. unfold client_empty. simpl.
  apply String.eqb_neq in Hne. now rewrite Hne, String.eqb_refl.
Qed.

Lemma NoDup_keys_value {V : Type} (l : list (nat * V)) (k : nat) (v v' : V) :
  NoDup (map fst l) -> In (k, v) l -> In (k, v') l -> v = v'.
Proof.
  induction l as [|[k0 v0] l IH]; simpl; intros Hnd H1 H2; [contradiction|].
  inversion Hnd as [|? ? Hnot Hnd']; subst.
  destruct H1 as [H1|H1], H2 as [H2|H2].
  - congruence.
  - inversion H1; subst. exfalso. apply Hnot.
    apply in_map_iff. now exists (k, v').
  - inversion H2; subst. exfalso. apply Hnot.
    apply in_map_iff. now exists (k, v).
  - eauto.
Qed.

(** With distinct keys, leaving out the keys of the entries that pass a test
    leaves the entries that fail it. *)
Lemma filter_not_in_keys {V : Type} (f : nat * V -> bool) (l : list (nat * V)) :
  NoDup (map fst l) ->
  filter (fun kv => not_in (map fst (filter f l)) (fst kv)) l
  = filter (fun kv => negb (f kv)) l.
Proof.
  intros Hnd. apply filter_ext_in. intros [k v] Hin. unfold not_in. simpl.
  f_equal. destruct (f (k, v)) eqn:F.
  - apply existsb_exists. exists k. split; [|apply Nat.eqb_refl].
    apply in_map_iff. exists (k, v). split; [reflexivity|].
    apply filter_In. auto.
  - destruct (existsb (Nat.eqb k) (map fst (filter f l))) eqn:E; [|reflexivity].
    apply existsb_exists in E as (k' & Hk' & Heq).
    apply Nat.eqb_eq in Heq. subst k'.
    apply in_map_iff in Hk' as ([k1 v1] & Hk1 & Hf). simpl in Hk1. subst k1.
    apply filter_In in Hf as [Hin' Hf].
    rewrite (NoDup_keys_value _ _ _ _ Hnd Hin Hin') in F. congruence.
Qed.

(** A call on a new object that returns, in full. *)
Lemma return_chatlogs_fresh (logs : list string) (corpus : Corpus)
    (self' : ProcessChatlogs) :
  return_chatlogs (new_ProcessChatlogs logs) = Return corpus self' ->
  chatlogs self' = logs
  /\ agent_error_logs self' = filter agentless logs
  /\ Dict.keys (chat_dict self') = map fst (with_agent 0 logs)
  /\ ascending_from 0 (Dict.keys (chat_dict self'))
  /\ client_error_logs self'
     = map fst (filter (fun kv => client_empty (snd kv)) (chat_dict self'))
  /\ corpus = filter (fun kv => negb (client_empty (snd kv))) (chat_dict self')
  /\ (forall k d, In (k, d) (chat_dict self') ->
        exists name a label c, d = [(name, a); (label, c)] /\ name <> label).
Proof.
  intros Hrun. pose proof Hrun as Hrun'.
  rewrite return_chatlogs_unfold in Hrun. simpl chatlogs in Hrun.
  destruct (acquire_loop 0 logs None (new_ProcessChatlogs logs))
    as [[] s1|e s1] eqn:E1; [|discriminate].
  destruct (client_check_loop (chat_dict s1) s1) as [[] s2|e s2] eqn:E2;
    [|discriminate].
  inversion Hrun; subst corpus self'. clear Hrun.
  apply acquire_loop_fresh in E1 as (entries & Hd & Hk & Hasc & Ha & Hc & Hl);
    [|intros k []].
  apply client_check_loop_logged in E2 as (Hc2 & Hd2 & Ha2 & Hl2).
  simpl in Hd, Ha, Hc, Hl. rewrite Hd2, Hc2, Ha2, Hl2, Hc, Ha, Hl, Hd.
  simpl. unfold Dict.keys.
  split; [reflexivity|]. split; [reflexivity|]. split; [exact Hk|].
  split; [exact Hasc|]. split; [reflexivity|]. split.
  - apply filter_not_in_keys. eapply ascending_from_NoDup. exact Hasc.
  - intros k d Hin.
    apply return_chatlogs_returns in Hrun'
      as (entries' & errs & keys & Hs & _ & _ & _ & _ & Hprov & _).
    assert (Hin' : In (k, d) entries').
    { assert (Hcd : chat_dict s2 = entries) by (now rewrite Hd2, Hd).
      rewrite Hs in Hcd. simpl in Hcd. rewrite <- Hcd in Hin.
      apply fold_set_in in Hin as [[]|Hin]. exact Hin. }
    destruct (Hprov k d Hin') as (chatlog & c & c' & _ & Hlab & Hag & Hb).
    apply build_dialogue_shape in Hb
      as (name & label & a & ct & -> & Hne & _);
      [|now apply apply_agent_regex_no_colon | exact Hlab].
    now exists name, a, label, ct.
Qed.

Lemma with_agent_in (logs : list string) :
  forall i k chatlog,
    In (k, chatlog) (with_agent i logs)
    <-> i <= k /\ nth_error logs (k - i) = Some chatlog
        /\ agentless chatlog = false.
Proof.
  induction logs as [|c more IH]; intros i k chatlog.
  - unfold with_agent, enumerate_from. simpl. split; [intros []|].
    intros (_ & H & _). destruct (k - i); discriminate.
  - rewrite with_agent_cons. split.
    + intros H.
      assert (Hrest : In (k, chatlog) (with_agent (S i) more) ->
                i <= k /\ nth_error (c :: more) (k - i) = Some chatlog
                /\ agentless chatlog = false).
      { intros Hin. apply IH in Hin as (Hle & Hn & Ha).
        split; [lia|]. split; [|exact Ha].
        replace (k - i) with (S (k - S i)) by lia. exact Hn. }
      destruct (agentless c) eqn:E; [auto|].
      destruct H as [H|H]; [|auto].
      inversion H; subst. rewrite Nat.sub_diag. simpl. auto.
    + intros (Hle & Hn & Ha).
      destruct (Nat.eq_dec k i) as [->|Hne].
      * rewrite Nat.sub_diag in Hn. simpl in Hn. inversion Hn; subst c.
        rewrite Ha. now left.
      * assert (Hin : In (k, chatlog) (with_agent (S i) more)).
        { apply IH. split; [lia|]. split; [|exact Ha].
          replace (k - i) with (S (k - S i)) in Hn by lia. exact Hn. }
        destruct (agentless c); [exact Hin | now right].
Qed.

Lemma client_check_loop_grows (items : Corpus) :
  forall self,
    chatlogs (final_state (client_check_loop items self)) = chatlogs self
    /\ agent_error_logs (final_state (client_check_loop items self))
       = agent_error_logs self
    /\ exists more,
         client_error_logs (final_state (client_check_loop items self))
         = client_error_logs self ++ more.
Proof.
  induction items as [|[key dialogue] more IH]; intros self; simpl.
  - repeat split. exists []. now rewrite app_nil_r.
  - assert (Hstay : chatlogs self = chatlogs self
                    /\ agent_error_logs self = agent_error_logs self
                    /\ exists more0, client_error_logs self
                                    = client_error_logs self ++ more0)
      by (repeat split; exists []; now rewrite app_nil_r).
    destruct (Dict.keys dialogue) as [|CSM [|KLT [|x l]]]; try exact Hstay.
    destruct (Dict.get String.eqb KLT dialogue) as [turns|]; [|exact Hstay].
    unfold bind. destruct (Nat.eqb (List.length turns) 0).
    + unfold log_client_error.
      match goal with
      | |- context [client_check_loop more ?st] =>
          destruct (IH st) as (H1 & H2 & (m & H3));
          destruct (client_check_loop more st)
      end; simpl in *;
        (split; [exact H1|]; split; [exact H2|];
         exists (key :: m); now rewrite H3, <- app_assoc).
    + unfold ret. apply IH.
Qed.

(** X13: when [return_chatlogs] returns on a new object, [agent_error_logs]
    holds exactly the transcripts without an agent, in their order and as
    often as they occur, and [chat_dict] has exactly the indices of the
    other transcripts as keys, in increasing order; the transcripts
    themselves are untouched. *)
Theorem X13_logged_and_stored (logs : list string) (corpus : Corpus)
    (self' : ProcessChatlogs) :
  return_chatlogs (new_ProcessChatlogs logs) = Return corpus self' ->
  chatlogs self' = logs
  /\ agent_error_logs self' = filter agentless logs
  /\ Dict.keys (chat_dict self') = map fst (with_agent 0 logs)
  /\ ascending_from 0 (Dict.keys (chat_dict self')).
Proof.
  intros H. apply return_chatlogs_fresh in H as (H1 & H2 & H3 & H4 & _).
  auto.
Qed.

Lemma X13_logged_and_stored_witness :
  chatlogs (mkPCL ["hoi"; "Agent Jan ( 1s ) Klant: hoi"]
                  [(1, [("Jan", []); ("Klant: ", [(0, "hoi", "( 1s )")])])]
                  ["hoi"] [])
  = ["hoi"; "Agent Jan ( 1s ) Klant: hoi"]
  /\ agent_error_logs (mkPCL ["hoi"; "Agent Jan ( 1s ) Klant: hoi"]
                  [(1, [("Jan", []); ("Klant: ", [(0, "hoi", "( 1s )")])])]
                  ["hoi"] [])
     = filter agentless ["hoi"; "Agent Jan ( 1s ) Klant: hoi"]
  /\ Dict.keys (chat_dict (mkPCL ["hoi"; "Agent Jan ( 1s ) Klant: hoi"]
                  [(1, [("Jan", []); ("Klant: ", [(0, "hoi", "( 1s )")])])]
                  ["hoi"] []))
     = map fst (with_agent 0 ["hoi"; "Agent Jan ( 1s ) Klant: hoi"])
  /\ ascending_from 0
       (Dict.keys (chat_dict (mkPCL ["hoi"; "Agent Jan ( 1s ) Klant: hoi"]
                  [(1, [("Jan", []); ("Klant: ", [(0, "hoi", "( 1s )")])])]
                  ["hoi"] []))).
Proof.
  apply (X13_logged_and_stored ["hoi"; "Agent Jan ( 1s ) Klant: hoi"]
           [(1, [("Jan", []); ("Klant: ", [(0, "hoi", "( 1s )")])])]).
  vm_compute. reflexivity.
Defined.

(** X14: when [return_chatlogs] returns on a new object, [client_error_logs]
    holds the keys of the stored dialogues whose client turn list is empty,
    in the order of [chat_dict], and the returned Corpus is [chat_dict]
    without those dialogues, in the same order; [chat_dict] itself keeps
    them. *)
Theorem X14_corpus_is_filtered_copy (logs : list string) (corpus : Corpus)
    (self' : ProcessChatlogs) :
  return_chatlogs (new_ProcessChatlogs logs) = Return corpus self' ->
  client_error_logs self'
  = map fst (filter (fun kv => client_empty (snd kv)) (chat_dict self'))
  /\ corpus = filter (fun kv => negb (client_empty (snd kv))) (chat_dict self').
Proof.
  intros H. apply return_chatlogs_fresh in H as (_ & _ & _ & _ & H5 & H6 & _).
  auto.
Qed.

Lemma X14_corpus_is_filtered_copy_witness :
  client_error_logs
    (mkPCL ["Agent Jan ( 1s ) Klant: hoi"; "Agent Jan ( 0s 10s ) Jan: hallo"]
           [(0, [("Jan", []); ("Klant: ", [(0, "hoi", "( 1s )")])]);
            (1, [("Jan", [(0, "hallo", "( 0s 10s )")]); ("Klant: ", [])])]
           [] [1])
  = map fst (filter (fun kv => client_empty (snd kv))
       (chat_dict
          (mkPCL ["Agent Jan ( 1s ) Klant: hoi"; "Agent Jan ( 0s 10s ) Jan: hallo"]
             [(0, [("Jan", []); ("Klant: ", [(0, "hoi", "( 1s )")])]);
              (1, [("Jan", [(0, "hallo", "( 0s 10s )")]); ("Klant: ", [])])]
             [] [1])))
  /\ [(0, [("Jan", []); ("Klant: ", [(0, "hoi", "( 1s )")])])]
     = filter (fun kv => negb (client_empty (snd kv)))
         (chat_dict
            (mkPCL ["Agent Jan ( 1s ) Klant: hoi"; "Agent Jan ( 0s 10s ) Jan: hallo"]
               [(0, [("Jan", []); ("Klant: ", [(0, "hoi", "( 1s )")])]);
                (1, [("Jan", [(0, "hallo", "( 0s 10s )")]); ("Klant: ", [])])]
               [] [1])).
Proof.
  apply (X14_corpus_is_filtered_copy
           ["Agent Jan ( 1s ) Klant: hoi"; "Agent Jan ( 0s 10s ) Jan: hallo"]).
  vm_compute. reflexivity.
Defined.

(** X15: every dialogue of the Corpus [return_chatlogs] returns on a new
    object has an agent key and a different client key, and at least one
    client turn. *)
Theorem X15_retained_has_client_turn (logs : list string) (corpus : Corpus)
    (self' : ProcessChatlogs) (k : nat) (d : DialogueMap) :
  return_chatlogs (new_ProcessChatlogs logs) = Return corpus self' ->
  In (k, d) corpus ->
  exists name a_turns label c_turns,
    d = [(name, a_turns); (label, c_turns)]
    /\ name <> label /\ c_turns <> [].
Proof.
  intros H Hin.
  apply return_chatlogs_fresh in H as (_ & _ & _ & _ & _ & -> & Hshape).
  apply filter_In in Hin as [Hin Hce]. simpl in Hce.
  destruct (Hshape k d Hin) as (name & a & label & c & -> & Hne).
  exists name, a, label, c. repeat split; auto.
  rewrite (client_empty_shape _ _ _ _ Hne) in Hce.
  intros ->. discriminate.
Qed.

Lemma X15_retained_has_client_turn_witness :
  exists name a_turns label c_turns,
    [("Jan", []); ("Klant: ", [(0, "hoi", "( 1s )")])]
    = [(name, a_turns); (label, c_turns)]
    /\ name <> label /\ c_turns <> [].
Proof.
  apply (X15_retained_has_client_turn
           ["Agent Jan ( 1s ) Klant: hoi"; "Agent Jan ( 0s 10s ) Jan: hallo"]
           [(0, [("Jan", []); ("Klant: ", [(0, "hoi", "( 1s )")])])]
           (mkPCL ["Agent Jan ( 1s ) Klant: hoi"; "Agent Jan ( 0s 10s ) Jan: hallo"]
              [(0, [("Jan", []); ("Klant: ", [(0, "hoi", "( 1s )")])]);
               (1, [("Jan", [(0, "hallo", "( 0s 10s )")]); ("Klant: ", [])])]
              [] [1])
           0).
  - vm_compute. reflexivity.
  - now left.
Defined.

(** X16: when [return_chatlogs] returns on a new object, every transcript
    ends in exactly one place: without an agent it is in [agent_error_logs]
    and its index is no key of [chat_dict]; with an agent its index is
    either in [client_error_logs] or a key of the returned Corpus, never
    both. *)
Theorem X16_every_transcript_accounted_for (logs : list string) (corpus : Corpus)
    (self' : ProcessChatlogs) (j : nat) (chatlog : string) :
  return_chatlogs (new_ProcessChatlogs logs) = Return corpus self' ->
  nth_error logs j = Some chatlog ->
  (agentless chatlog = true
   /\ In chatlog (agent_error_logs self')
   /\ ~ In j (Dict.keys (chat_dict self'))
   /\ ~ In j (client_error_logs self') /\ ~ In j (Dict.keys corpus))
  \/ (agentless chatlog = false
      /\ In j (client_error_logs self') /\ ~ In j (Dict.keys corpus))
  \/ (agentless chatlog = false
      /\ ~ In j (client_error_logs self') /\ In j (Dict.keys corpus)).
Proof.
  intros H Hn.
  apply return_chatlogs_fresh in H as (_ & Ha & Hk & Hasc & Hc & -> & _).
  assert (Hkey : In j (Dict.keys (chat_dict self')) <-> agentless chatlog = false).
  { rewrite Hk. split.
    - intros Hin. apply in_map_iff in Hin as ([k c] & Hj & Hin). simpl in Hj.
      subst k. apply with_agent_in in Hin as (_ & Hn' & Hag).
      rewrite Nat.sub_0_r in Hn'. congruence.
    - intros Hag. apply in_map_iff. exists (j, chatlog). split; [reflexivity|].
      apply with_agent_in. rewrite Nat.sub_0_r. repeat split; auto. lia. }
  assert (Hnd : NoDup (map fst (chat_dict self')))
    by (eapply ascending_from_NoDup; exact Hasc).
  destruct (agentless chatlog) eqn:Eag.
  - left. split; [reflexivity|].
    assert (Hnk : ~ In j (Dict.keys (chat_dict self')))
      by (intros Hin; apply Hkey in Hin; discriminate).
    split; [rewrite Ha; apply filter_In; split;
            [eapply nth_error_In; exact Hn | exact Eag]|].
    split; [exact Hnk|]. split.
    + rewrite Hc. intros Hin. apply Hnk.
      apply in_map_iff in Hin as (kv & Hj & Hin).
      apply filter_In in Hin as [Hin _]. apply in_map_iff. now exists kv.
    + intros Hin. apply Hnk. eapply keys_filter. exact Hin.
  - right. assert (Hin : In j (Dict.keys (chat_dict self'))) by now apply Hkey.
    apply in_map_iff in Hin as ([k d] & Hj & Hin). simpl in Hj. subst k.
    destruct (client_empty d) eqn:Ece.
    + left. split; [reflexivity|]. split.
      * rewrite Hc. apply in_map_iff. exists (j, d). split; [reflexivity|].
        apply filter_In. auto.
      * intros Hk'. apply in_map_iff in Hk' as ([k d'] & Hj & Hin').
        simpl in Hj. subst k. apply filter_In in Hin' as [Hin' Hce].
        simpl in Hce. rewrite (NoDup_keys_value _ _ _ _ Hnd Hin Hin') in Ece.
        rewrite Ece in Hce. discriminate.
    + right. split; [reflexivity|]. split.
      * rewrite Hc. intros Hk'. apply in_map_iff in Hk' as ([k d'] & Hj & Hin').
        simpl in Hj. subst k. apply filter_In in Hin' as [Hin' Hce].
        simpl in Hce. rewrite (NoDup_keys_value _ _ _ _ Hnd Hin Hin') in Ece.
        congruence.
      * apply in_map_iff. exists (j, d). split; [reflexivity|].
        apply filter_In. simpl. now rewrite Ece.
Qed.

Lemma X16_every_transcript_accounted_for_witness :
  (agentless "Agent Jan ( 0s 10s ) Jan: hallo" = true
   /\ In "Agent Jan ( 0s 10s ) Jan: hallo" ["hoi"]
   /\ ~ In 2 (Dict.keys
               [(1, [("Jan", []); ("Klant: ", [(0, "hoi", "( 1s )")])]);
                (2, [("Jan", [(0, "hallo", "( 0s 10s )")]); ("Klant: ", [])])])
   /\ ~ In 2 [2]
   /\ ~ In 2 (Dict.keys [(1, [("Jan", []); ("Klant: ", [(0, "hoi", "( 1s )")])])]))
  \/ (agentless "Agent Jan ( 0s 10s ) Jan: hallo" = false
      /\ In 2 [2]
      /\ ~ In 2 (Dict.keys [(1, [("Jan", []); ("Klant: ", [(0, "hoi", "( 1s )")])])]))
  \/ (agentless "Agent Jan ( 0s 10s ) Jan: hallo" = false
      /\ ~ In 2 [2]
      /\ In 2 (Dict.keys [(1, [("Jan", []); ("Klant: ", [(0, "hoi", "( 1s )")])])])).
Proof.
  apply (X16_every_transcript_accounted_for
           ["hoi"; "Agent Jan ( 1s ) Klant: hoi"; "Agent Jan ( 0s 10s ) Jan: hallo"]
           [(1, [("Jan", []); ("Klant: ", [(0, "hoi", "( 1s )")])])]
           (mkPCL ["hoi"; "Agent Jan ( 1s ) Klant: hoi";
                   "Agent Jan ( 0s 10s ) Jan: hallo"]
              [(1, [("Jan", []); ("Klant: ", [(0, "hoi", "( 1s )")])]);
               (2, [("Jan", [(0, "hallo", "( 0s 10s )")]); ("Klant: ", [])])]
              ["hoi"] [2])
           2 "Agent Jan ( 0s 10s ) Jan: hallo").
  - vm_compute. reflexivity.
  - reflexivity.
Defined.

(** X17: on a new object [return_chatlogs] raises nothing but IndexError and
    NameError, and when it raises it is [acquire_dialogue] that raised: the
    unpacking of the two keys and the lookup of lines 160-162 never fail,
    and [client_error_logs] is still empty. *)
Theorem X17_only_index_and_name_errors (logs : list string) (e : exn)
    (self' : ProcessChatlogs) :
  return_chatlogs (new_ProcessChatlogs logs) = Raise e self' ->
  (e = IndexError \/ e = NameError)
  /\ acquire_dialogue (new_ProcessChatlogs logs) = Raise e self'
  /\ client_error_logs self' = [].
Proof.
  rewrite return_chatlogs_unfold. simpl chatlogs.
  unfold acquire_dialogue, bind, get_self. simpl chatlogs.
  pose proof (acquire_loop_grows logs 0 None (new_ProcessChatlogs logs))
    as (_ & Hcel & _ & _ & Herr).
  destruct (acquire_loop 0 logs None (new_ProcessChatlogs logs))
    as [[] s1|e1 s1] eqn:E1.
  - intros H. exfalso.
    destruct (acquire_loop_frame _ _ _ _ _ label_ok_none E1)
      as (entries & errs & Hrun & _ & Hprov & _).
    rewrite Hrun in E1. inversion E1; subst s1. simpl in H.
    destruct (client_check_loop_total (fold_left assign entries [])) with
      (self := after_acquire entries errs (new_ProcessChatlogs logs))
      as (s2 & Hs2).
    + intros k d Hin. apply fold_set_in in Hin as [[]|Hin].
      destruct (Hprov k d Hin) as (chatlog & c & c' & _ & _ & Hlab & Hag & Hb).
      apply build_dialogue_shape in Hb
        as (name & label & a & ct & -> & Hne & _);
        [|now apply apply_agent_regex_no_colon | exact Hlab].
      now exists name, a, label, ct.
    + rewrite Hs2 in H. discriminate.
  - intros H. inversion H; subst e1 s1. simpl in Hcel.
    split; [eapply Herr; reflexivity|]. split; [reflexivity | exact Hcel].
Qed.

Lemma X17_only_index_and_name_errors_witness :
  (IndexError = IndexError \/ IndexError = NameError)
  /\ acquire_dialogue (new_ProcessChatlogs ["hoi"; "Agent Jan ( 1s )( 2s ) hoi"])
     = Raise IndexError (mkPCL ["hoi"; "Agent Jan ( 1s )( 2s ) hoi"] [] ["hoi"] [])
  /\ client_error_logs (mkPCL ["hoi"; "Agent Jan ( 1s )( 2s ) hoi"] [] ["hoi"] [])
     = [].
Proof.
  apply (X17_only_index_and_name_errors ["hoi"; "Agent Jan ( 1s )( 2s ) hoi"]).
  vm_compute. reflexivity.
Defined.

(** * The alias law and the carried client label *)

(** The round of a span whose prefix is the reserved label. *)
Lemma turn_step_reserved (v : Locals) (i : nat) (sentence timestamp : string) :
  apply_client_regex sentence = Ok "Klantenservice: " ->
  turn_step v i sentence timestamp
  = Ok (mkLocals "Klantenservice"
          (agent_sentences v ++
           [(i, Str.replace "Klantenservice: " "" sentence, timestamp)])
          (client_sentences v) (actual_client_name v)).
Proof.
  intros H. unfold turn_step. rewrite H.
  apply apply_client_regex_shape in H as (_ & _ & _ & _ & _ & _ & Hc).
  change (resolve_alias "Klantenservice: " (agent_name v)) with "Klantenservice".
  change (agent_prefix "Klantenservice") with "Klantenservice: ".
  now rewrite Hc.
Qed.

(** The round of a span once the agent name is the reserved label: the
    test of line 134 is for "Klantenservice: ". *)
Lemma turn_step_after_alias (v : Locals) (i : nat) (s t client_name : string) :
  agent_name v = "Klantenservice" ->
  apply_client_regex s = Ok client_name ->
  turn_step v i s t
  = if Str.contains "Klantenservice: " s
    then Ok (mkLocals "Klantenservice"
               (agent_sentences v ++
                [(i, Str.replace "Klantenservice: " "" s, t)])
               (client_sentences v) (actual_client_name v))
    else Ok (mkLocals "Klantenservice" (agent_sentences v)
               (client_sentences v ++ [(i, Str.replace client_name "" s, t)])
               (Some client_name)).
Proof.
  intros Hv Hcn. unfold turn_step. rewrite Hcn, Hv, resolve_alias_reserved.
  change (agent_prefix "Klantenservice") with "Klantenservice: ".
  reflexivity.
Qed.

Lemma well_prefixed_app (l1 l2 : list (string * string)) :
  well_prefixed (l1 ++ l2) = well_prefixed l1 && well_prefixed l2.
Proof. unfold well_prefixed. apply forallb_app. Qed.

Lemma apply_client_regex_ok_prefixed (sentence client_name : string) :
  apply_client_regex sentence = Ok client_name -> has_colon_space sentence = true.
Proof.
  intros H. destruct (has_colon_space sentence) eqn:E; [reflexivity|].
  apply apply_client_regex_fails_iff in E. congruence.
Qed.

Lemma apply_client_regex_prefixed_ok (sentence : string) :
  has_colon_space sentence = true ->
  exists client_name, apply_client_regex sentence = Ok client_name.
Proof.
  intros H. destruct (apply_client_regex sentence) as [cn|e] eqn:E; [eauto|].
  pose proof (apply_client_regex_error _ _ E) as ->.
  apply apply_client_regex_fails_iff in E. congruence.
Qed.

(** C7: once a paired span's extracted client-name prefix is the reserved
    service label "Klantenservice: ", that span is an agent turn under the
    name "Klantenservice", and for every later span of the transcript the
    loop comes to, the agent-prefix test of line 134 is the test for
    "Klantenservice: ", whatever name agent extraction had found: the span
    goes to the agent turns, less "Klantenservice: ", when it contains that
    prefix, and to the client turns, less its own prefix, when it does not;
    and the agent key of the DialogueMap that is built is
    "Klantenservice". *)
Theorem C7_alias_law (agent chatlog : string) (carried : option string)
    (before after : list (string * string)) (sentence timestamp : string) :
  paired chatlog = before ++ (sentence, timestamp) :: after ->
  apply_client_regex sentence = Ok "Klantenservice: " ->
  well_prefixed before = true ->
  (exists v0,
      turn_loop 0 before (mkLocals agent [] [] carried) = Ok v0
      /\ turn_step v0 (List.length before) sentence timestamp
         = Ok (mkLocals "Klantenservice"
                 (agent_sentences v0 ++
                  [(List.length before,
                    Str.replace "Klantenservice: " "" sentence, timestamp)])
                 (client_sentences v0) (actual_client_name v0)))
  /\ (forall seen s t later,
        after = seen ++ (s, t) :: later ->
        well_prefixed seen = true -> has_colon_space s = true ->
        exists v client_name,
          turn_loop 0 (before ++ (sentence, timestamp) :: seen)
                    (mkLocals agent [] [] carried) = Ok v
          /\ agent_name v = "Klantenservice"
          /\ apply_client_regex s = Ok client_name
          /\ turn_step v (List.length (before ++ (sentence, timestamp) :: seen)) s t
             = if Str.contains "Klantenservice: " s
               then Ok (mkLocals "Klantenservice"
                          (agent_sentences v ++
                           [(List.length (before ++ (sentence, timestamp) :: seen),
                             Str.replace "Klantenservice: " "" s, t)])
                          (client_sentences v) (actual_client_name v))
               else Ok (mkLocals "Klantenservice" (agent_sentences v)
                          (client_sentences v ++
                           [(List.length (before ++ (sentence, timestamp) :: seen),
                             Str.replace client_name "" s, t)])
                          (Some client_name)))
  /\ (well_prefixed after = true ->
      carried <> None \/ monologue agent (paired chatlog) = false ->
      exists d carried',
        build_dialogue agent chatlog carried = Ok (d, carried')
        /\ hd_error (Dict.keys d) = Some "Klantenservice").
Proof.
  intros Hpairs Hres Hbefore.
  destruct (turn_loop_returns before 0 (mkLocals agent [] [] carried)
              (well_prefixed_true _ Hbefore)) as (v0 & Hv0 & _).
  assert (Hloop : forall seen v,
             turn_loop 0 (before ++ (sentence, timestamp) :: seen)
                       (mkLocals agent [] [] carried) = Ok v ->
             agent_name v = "Klantenservice").
  { intros seen v H. rewrite turn_loop_app, Hv0 in H. simpl in H.
    rewrite (turn_step_reserved _ _ _ _ Hres) in H.
    now apply turn_loop_reserved in H. }
  split; [|split].
  - exists v0. split; [exact Hv0 | now apply turn_step_reserved].
  - intros seen s t later _ Hseen Hs.
    assert (Hret : exists v,
               turn_loop 0 (before ++ (sentence, timestamp) :: seen)
                         (mkLocals agent [] [] carried) = Ok v).
    { rewrite turn_loop_app, Hv0. simpl.
      rewrite (turn_step_reserved _ _ _ _ Hres).
      match goal with
      | |- context [turn_loop ?n seen ?w] =>
          destruct (turn_loop_returns seen n w (well_prefixed_true _ Hseen))
            as (v & Hv & _)
      end.
      now exists v. }
    destruct Hret as (v & Hv).
    destruct (apply_client_regex_prefixed_ok _ Hs) as (cn & Hcn).
    exists v, cn. split; [exact Hv|].
    pose proof (Hloop _ _ Hv) as Hname. split; [exact Hname|].
    split; [exact Hcn|]. now apply turn_step_after_alias.
  - intros Hafter Hlabel.
    assert (Hall : well_prefixed (paired chatlog) = true).
    { rewrite Hpairs, well_prefixed_app, Hbefore. simpl.
      unfold well_prefixed in Hafter |- *. simpl.
      now rewrite (apply_client_regex_ok_prefixed _ _ Hres), Hafter. }
    destruct (turn_loop_returns (paired chatlog) 0 (mkLocals agent [] [] carried)
                (well_prefixed_true _ Hall)) as (v & Hv & Hbound).
    simpl in Hbound.
    assert (Hsome : actual_client_name v <> None).
    { destruct Hlabel as [Hc|Hm]; [|auto].
      eapply turn_loop_label_bound; [|exact Hv]. exact Hc. }
    unfold build_dialogue. rewrite Hv.
    destruct (actual_client_name v) as [label|]; [|congruence].
    eexists. eexists. split; [reflexivity|].
    rewrite Hpairs in Hv. apply Hloop in Hv. simpl.
    destruct (String.eqb (agent_name v) label); simpl; now rewrite Hv.
Qed.

Lemma C7_alias_law_witness :
  (exists v0,
      turn_loop 0 [] (mkLocals "Jan" [] [] None) = Ok v0
      /\ turn_step v0 0 "Klantenservice: hallo " "( 0s 10s )"
         = Ok (mkLocals "Klantenservice"
                 (agent_sentences v0 ++ [(0, "hallo ", "( 0s 10s )")])
                 (client_sentences v0) (actual_client_name v0)))
  /\ (exists v client_name,
        turn_loop 0 [("Klantenservice: hallo ", "( 0s 10s )");
                     ("Klant: hoi ", "( 10s 20s )")]
                  (mkLocals "Jan" [] [] None) = Ok v
        /\ agent_name v = "Klantenservice"
        /\ apply_client_regex "Jan: dag" = Ok client_name
        /\ turn_step v 2 "Jan: dag" "( 20s 30s )"
           = Ok (mkLocals "Klantenservice" (agent_sentences v)
                   (client_sentences v ++
                    [(2, Str.replace client_name "" "Jan: dag", "( 20s 30s )")])
                   (Some client_name)))
  /\ (exists d carried',
        build_dialogue "Jan"
          "Agent Jan ( 0s 10s ) Klantenservice: hallo ( 10s 20s ) Klant: hoi ( 20s 30s ) Jan: dag"
          None = Ok (d, carried')
        /\ hd_error (Dict.keys d) = Some "Klantenservice").
Proof.
  destruct (C7_alias_law "Jan"
              "Agent Jan ( 0s 10s ) Klantenservice: hallo ( 10s 20s ) Klant: hoi ( 20s 30s ) Jan: dag"
              None []
              [("Klant: hoi ", "( 10s 20s )"); ("Jan: dag", "( 20s 30s )")]
              "Klantenservice: hallo " "( 0s 10s )")
    as (Ha & Hb & Hc).
  - vm_compute. reflexivity.
  - vm_compute. reflexivity.
  - reflexivity.
  - split; [exact Ha|]. split.
    + apply (Hb [("Klant: hoi ", "( 10s 20s )")] "Jan: dag" "( 20s 30s )" []).
      * reflexivity.
      * vm_compute. reflexivity.
      * vm_compute. reflexivity.
    + apply Hc.
      * vm_compute. reflexivity.
      * right. vm_compute. reflexivity.
Defined.

(** A loop that adds no client turn took every pair for an agent turn. *)
Lemma turn_loop_no_client_turn (pairs : list (string * string)) :
  forall i v v',
    turn_loop i pairs v = Ok v' ->
    client_sentences v' = client_sentences v ->
    monologue (agent_name v) pairs = true.
Proof.
  induction pairs as [|[s t] more IH]; simpl; intros i v v' H Hsame;
    [reflexivity|].
  destruct (turn_step_cases v i s t) as [[_ E]|(cn & Hcn & Hcase)];
    [rewrite E in H; discriminate|].
  rewrite Hcn. cbv zeta in Hcase.
  destruct Hcase as [[Hc E]|[Hc E]]; rewrite E in H.
  - rewrite Hc. simpl. apply (IH _ _ _ H). exact Hsame.
  - exfalso. apply turn_loop_turns in H as (new_a & new_c & _ & Hcl & _).
    simpl in Hcl. rewrite Hsame, <- app_assoc in Hcl.
    apply (f_equal (@List.length Turn)) in Hcl.
    rewrite List.length_app in Hcl. simpl in Hcl. lia.
Qed.

(** A transcript with an agent, a prefix on every paired sentence and a
    pair that is not an agent turn is built whatever label is carried in,
    and the label it hands on is the prefix of its last client turn. *)
Lemma build_dialogue_records (donor : string) (carried : option string) :
  agentless donor = false ->
  well_prefixed (paired donor) = true ->
  monologue (apply_agent_regex donor) (paired donor) = false ->
  exists name a_turns label c_turns,
    build_dialogue (apply_agent_regex donor) donor carried
    = Ok ([(name, a_turns); (label, c_turns)], Some label)
    /\ Str.mem ":" label = true
    /\ exists earlier j text ts sentence,
         c_turns = earlier ++ [(j, text, ts)]
         /\ nth_error (paired donor) j = Some (sentence, ts)
         /\ apply_client_regex sentence = Ok label.
Proof.
  intros Hagent Hall Hmono. unfold agentless in Hagent.
  apply String.eqb_neq in Hagent.
  destruct (turn_loop_returns (paired donor) 0
              (mkLocals (apply_agent_regex donor) [] [] carried)
              (well_prefixed_true _ Hall)) as (v & Hv & _).
  pose proof (turn_loop_invariant _ _ _ _ Hv) as (_ & Hname & _).
  simpl in Hname. specialize (Hname (apply_agent_regex_no_colon _ Hagent)).
  pose proof (turn_loop_turns _ _ _ _ Hv)
    as (new_a & new_c & _ & Hc & _ & _ & _ & _ & _ & _ & Hlast).
  simpl in Hc.
  assert (Hne : new_c <> []).
  { intros ->. apply turn_loop_no_client_turn in Hv; [|now rewrite Hc].
    simpl in Hv. congruence. }
  destruct (exists_last Hne) as (earlier & [[j text] ts] & Heq).
  destruct (Hlast _ _ _ _ Heq) as (sentence & Hn & Hcn & Hsome).
  rewrite Nat.sub_0_r in Hn.
  destruct (actual_client_name v) as [label|] eqn:L; [|congruence].
  pose proof (apply_client_regex_colon _ _ Hcn) as Hcolon.
  assert (Hdiff : String.eqb (agent_name v) label = false).
  { apply String.eqb_neq. intros Heq'. rewrite Heq' in Hname. congruence. }
  exists (agent_name v), (agent_sentences v), label, (client_sentences v).
  split; [|split; [exact Hcolon|]].
  - unfold build_dialogue. rewrite Hv, L. simpl. now rewrite Hdiff.
  - exists earlier, j, text, ts, sentence. rewrite Hc, Heq. auto.
Qed.

(** A transcript with an agent and only agent turns is built with the label
    carried in as its client key, holding no turn, and hands the label on;
    with no label carried in, building it raises NameError. *)
Lemma build_dialogue_monologue (chatlog : string) :
  agentless chatlog = false ->
  monologue (apply_agent_regex chatlog) (paired chatlog) = true ->
  (forall label, Str.mem ":" label = true ->
     exists name a_turns,
       build_dialogue (apply_agent_regex chatlog) chatlog (Some label)
       = Ok ([(name, a_turns); (label, [])], Some label))
  /\ build_dialogue (apply_agent_regex chatlog) chatlog None = Error NameError.
Proof.
  intros Hagent Hmono. unfold agentless in Hagent.
  apply String.eqb_neq in Hagent. split.
  - intros label Hcolon.
    destruct (turn_loop_monologue (paired chatlog) 0
                (mkLocals (apply_agent_regex chatlog) [] [] (Some label)) Hmono)
      as (v & Hv & Hcs & Hacn).
    simpl in Hcs, Hacn.
    pose proof (turn_loop_invariant _ _ _ _ Hv) as (_ & Hname & _).
    simpl in Hname. specialize (Hname (apply_agent_regex_no_colon _ Hagent)).
    assert (Hdiff : String.eqb (agent_name v) label = false).
    { apply String.eqb_neq. intros Heq'. rewrite Heq' in Hname. congruence. }
    exists (agent_name v), (agent_sentences v).
    unfold build_dialogue. rewrite Hv, Hacn, Hcs. simpl. now rewrite Hdiff.
  - destruct (turn_loop_monologue (paired chatlog) 0
                (mkLocals (apply_agent_regex chatlog) [] [] None) Hmono)
      as (v & Hv & _ & Hacn).
    simpl in Hacn. unfold build_dialogue. now rewrite Hv, Hacn.
Qed.

Lemma with_agent_errors_nil (self : ProcessChatlogs) :
  with_agent_errors [] self = self.
Proof. destruct self. unfold with_agent_errors. simpl. now rewrite app_nil_r. Qed.

(** The loop passes over transcripts without an agent, logging them, with
    the carried label as it was. *)
Lemma acquire_loop_skipped (skipped : list string) :
  forall rest i carried self,
    forallb agentless skipped = true ->
    acquire_loop i (skipped ++ rest) carried self
    = acquire_loop (i + List.length skipped) rest carried
        (with_agent_errors skipped self).
Proof.
  induction skipped as [|c skipped IH]; intros rest i carried self H.
  - simpl. now rewrite Nat.add_0_r, with_agent_errors_nil.
  - simpl in H. apply andb_true_iff in H as [Hc Hs].
    cbn [app acquire_loop]. unfold agentless in Hc. rewrite Hc.
    unfold bind, log_agent_error. rewrite (IH _ _ _ _ Hs).
    simpl. rewrite Nat.add_succ_r. f_equal.
    unfold with_agent_errors. simpl. now rewrite <- app_assoc.
Qed.

(** The loop passes over transcripts that record nothing with the carried
    label as it was, touching no key of [chat_dict] below their indices. *)
Lemma acquire_loop_between (between : list string) (label : string) :
  Str.mem ":" label = true ->
  forallb records_nothing between = true ->
  forall rest i self,
    exists self',
      acquire_loop i (between ++ rest) (Some label) self
      = acquire_loop (i + List.length between) rest (Some label) self'
      /\ forall k, k < i ->
           Dict.get Nat.eqb k (chat_dict self') = Dict.get Nat.eqb k (chat_dict self).
Proof.
  intros Hcolon. induction between as [|c between IH]; intros H rest i self.
  - exists self. simpl. now rewrite Nat.add_0_r.
  - simpl in H. apply andb_true_iff in H as [Hc Hs].
    cbn [app acquire_loop List.length]. rewrite Nat.add_succ_r.
    unfold records_nothing in Hc.
    change (String.eqb (apply_agent_regex c) "No agent") with (agentless c).
    destruct (agentless c) eqn:Eag.
    + unfold bind, log_agent_error.
      match goal with
      | |- context [acquire_loop (S i) (between ++ rest) (Some label) ?st] =>
          destruct (IH Hs rest (S i) st) as (self' & Hrun & Hget)
      end.
      exists self'. split; [exact Hrun|].
      intros k Hk. rewrite Hget by lia. reflexivity.
    + simpl in Hc.
      destruct (build_dialogue_monologue c Eag Hc) as [Hb _].
      destruct (Hb label Hcolon) as (name & a & Hbuild). rewrite Hbuild.
      unfold bind, store_dialogue.
      match goal with
      | |- context [acquire_loop (S i) (between ++ rest) (Some label) ?st] =>
          destruct (IH Hs rest (S i) st) as (self' & Hrun & Hget)
      end.
      exists self'. split; [exact Hrun|].
      intros k Hk. rewrite Hget by lia. simpl.
      apply dict_get_set_other. lia.
Qed.

(** With no label carried in, the loop raises NameError at the first
    transcript with an agent, when the transcripts up to it record
    nothing; nothing is stored. *)
Lemma acquire_loop_unbound (earlier : list string) (chatlog : string) :
  forallb records_nothing earlier = true ->
  agentless chatlog = false ->
  monologue (apply_agent_regex chatlog) (paired chatlog) = true ->
  forall more i self,
    exists self',
      acquire_loop i (earlier ++ chatlog :: more) None self = Raise NameError self'
      /\ chat_dict self' = chat_dict self.
Proof.
  intros Hearlier Hagent Hmono.
  assert (Hhere : forall more i self,
             acquire_loop i (chatlog :: more) None self = Raise NameError self).
  { intros more i self. cbn [acquire_loop].
    change (String.eqb (apply_agent_regex chatlog) "No agent")
      with (agentless chatlog).
    rewrite Hagent.
    destruct (build_dialogue_monologue chatlog Hagent Hmono) as [_ Hb].
    now rewrite Hb. }
  induction earlier as [|c earlier IH]; intros more i self.
  - exists self. simpl app. now rewrite Hhere.
  - simpl in Hearlier. apply andb_true_iff in Hearlier as [Hc Hs].
    cbn [app acquire_loop]. unfold records_nothing in Hc.
    change (String.eqb (apply_agent_regex c) "No agent") with (agentless c).
    destruct (agentless c) eqn:Eag.
    + unfold bind, log_agent_error.
      match goal with
      | |- context [acquire_loop (S i) (earlier ++ chatlog :: more) None ?st] =>
          destruct (IH Hs more (S i) st) as (self' & Hrun & Hd)
      end.
      exists self'. now rewrite Hrun.
    + simpl in Hc.
      destruct (build_dialogue_monologue c Eag Hc) as [_ Hb]. rewrite Hb.
      exists self. auto.
Qed.

(** C10: the client label is not set anew for each transcript.  A
    transcript with an agent whose paired spans are all agent turns is
    built with, as client key, the label recorded at the last client turn
    of the last earlier transcript that had one, whatever transcripts
    without a client turn lie in between, and that label goes on to the
    transcripts after it; its client turn list is empty.  When the earlier
    transcripts record no label, [acquire_dialogue] raises NameError instead
    of returning, and stores nothing. *)
Theorem C10_client_label_carried_over (chatlog : string) :
  agentless chatlog = false ->
  monologue (apply_agent_regex chatlog) (paired chatlog) = true ->
  (forall donor between more i carried self,
      agentless donor = false ->
      well_prefixed (paired donor) = true ->
      monologue (apply_agent_regex donor) (paired donor) = false ->
      forallb records_nothing between = true ->
      exists label name_d a_d c_d name a_turns self_m,
        (exists earlier j text ts sentence,
            c_d = earlier ++ [(j, text, ts)]
            /\ nth_error (paired donor) j = Some (sentence, ts)
            /\ apply_client_regex sentence = Ok label)
        /\ acquire_loop i (donor :: between ++ chatlog :: more) carried self
           = acquire_loop (S (S i + List.length between)) more (Some label) self_m
        /\ Dict.get Nat.eqb i (chat_dict self_m)
           = Some [(name_d, a_d); (label, c_d)]
        /\ Dict.get Nat.eqb (S i + List.length between) (chat_dict self_m)
           = Some [(name, a_turns); (label, [])])
  /\ (forall skipped more i self,
        forallb agentless skipped = true ->
        acquire_loop i (skipped ++ chatlog :: more) None self
        = Raise NameError (with_agent_errors skipped self))
  /\ (forall earlier more self,
        forallb records_nothing earlier = true ->
        chatlogs self = earlier ++ chatlog :: more ->
        exists self',
          acquire_dialogue self = Raise NameError self'
          /\ chat_dict self' = chat_dict self).
Proof.
  intros Hagent Hmono. split; [|split].
  - intros donor between more i carried self Hd1 Hd2 Hd3 Hbetween.
    destruct (build_dialogue_records donor carried Hd1 Hd2 Hd3)
      as (name_d & a_d & label & c_d & Hbd & Hcolon & Hlast).
    destruct (build_dialogue_monologue chatlog Hagent Hmono) as [Hbm _].
    destruct (Hbm label Hcolon) as (name & a_turns & Hbuild).
    destruct (acquire_loop_between between label Hcolon Hbetween
                (chatlog :: more) (S i)
                (mkPCL (chatlogs self)
                       (Dict.set Nat.eqb i [(name_d, a_d); (label, c_d)]
                                 (chat_dict self))
                       (agent_error_logs self) (client_error_logs self)))
      as (self1 & Hrun & Hget).
    exists label, name_d, a_d, c_d, name, a_turns,
      (mkPCL (chatlogs self1)
             (Dict.set Nat.eqb (S i + List.length between)
                       [(name, a_turns); (label, [])] (chat_dict self1))
             (agent_error_logs self1) (client_error_logs self1)).
    split; [exact Hlast|]. split; [|split].
    + cbn [acquire_loop].
      change (String.eqb (apply_agent_regex donor) "No agent")
        with (agentless donor).
      rewrite Hd1, Hbd. unfold bind at 1. unfold store_dialogue at 1.
      etransitivity; [exact Hrun|]. cbn [acquire_loop].
      change (String.eqb (apply_agent_regex chatlog) "No agent")
        with (agentless chatlog).
      rewrite Hagent, Hbuild. reflexivity.
    + simpl. rewrite dict_get_set_other by lia.
      rewrite Hget by lia. simpl. apply dict_get_set_same.
    + simpl. apply dict_get_set_same.
  - intros skipped more i self Hskipped.
    rewrite (acquire_loop_skipped _ _ _ _ _ Hskipped). cbn [acquire_loop].
    change (String.eqb (apply_agent_regex chatlog) "No agent")
      with (agentless chatlog).
    rewrite Hagent.
    destruct (build_dialogue_monologue chatlog Hagent Hmono) as [_ Hb].
    now rewrite Hb.
  - intros earlier more self Hearlier Hlogs.
    destruct (acquire_loop_unbound earlier chatlog Hearlier Hagent Hmono
                more 0 self) as (self' & Hrun & Hd).
    exists self'. split; [|exact Hd].
    unfold acquire_dialogue, bind, get_self. now rewrite Hlogs, Hrun.
Qed.

Lemma C10_client_label_carried_over_witness :
  (exists label name_d a_d c_d name a_turns self_m,
      (exists earlier j text ts sentence,
          c_d = earlier ++ [(j, text, ts)]
          /\ nth_error (paired "Agent Jan ( 1s ) Klant: hoi ( 2s ) Piet: dag") j
             = Some (sentence, ts)
          /\ apply_client_regex sentence = Ok label)
      /\ acquire_loop 0
           ("Agent Jan ( 1s ) Klant: hoi ( 2s ) Piet: dag"
            :: ["hoi"] ++ "Agent Jan ( 0s 10s ) Jan: hallo" :: [])
           None
           (new_ProcessChatlogs
              ["Agent Jan ( 1s ) Klant: hoi ( 2s ) Piet: dag"; "hoi";
               "Agent Jan ( 0s 10s ) Jan: hallo"])
         = acquire_loop 3 [] (Some label) self_m
      /\ Dict.get Nat.eqb 0 (chat_dict self_m) = Some [(name_d, a_d); (label, c_d)]
      /\ Dict.get Nat.eqb 2 (chat_dict self_m) = Some [(name, a_turns); (label, [])])
  /\ acquire_loop 0 (["hoi"] ++ "Agent Jan ( 0s 10s ) Jan: hallo" :: []) None
       (new_ProcessChatlogs ["hoi"; "Agent Jan ( 0s 10s ) Jan: hallo"])
     = Raise NameError
         (with_agent_errors ["hoi"]
            (new_ProcessChatlogs ["hoi"; "Agent Jan ( 0s 10s ) Jan: hallo"]))
  /\ (exists self',
        acquire_dialogue
          (new_ProcessChatlogs ["hoi"; "Agent Jan ( 0s 10s ) Jan: hallo"])
        = Raise NameError self'
        /\ chat_dict self'
           = chat_dict
               (new_ProcessChatlogs ["hoi"; "Agent Jan ( 0s 10s ) Jan: hallo"])).
Proof.
  destruct (C10_client_label_carried_over "Agent Jan ( 0s 10s ) Jan: hallo")
    as (Ha & Hb & Hc).
  - vm_compute. reflexivity.
  - vm_compute. reflexivity.
  - split; [|split].
    + apply (Ha "Agent Jan ( 1s ) Klant: hoi ( 2s ) Piet: dag" ["hoi"] [] 0 None).
      * vm_compute. reflexivity.
      * vm_compute. reflexivity.
      * vm_compute. reflexivity.
      * vm_compute. reflexivity.
    + apply (Hb ["hoi"] [] 0). vm_compute. reflexivity.
    + apply (Hc ["hoi"] []).
      * vm_compute. reflexivity.
      * reflexivity.
Defined.

(** * What a call changes in the object *)

(** However the loop ends, the dialogue under a key that is not the index
    of a transcript with an agent is as it was. *)
Lemma acquire_loop_get_untouched (logs : list string) :
  forall i carried self k,
    (forall chatlog, i <= k -> nth_error logs (k - i) = Some chatlog ->
                     agentless chatlog = true) ->
    Dict.get Nat.eqb k (chat_dict (final_state (acquire_loop i logs carried self)))
    = Dict.get Nat.eqb k (chat_dict self).
Proof.
  induction logs as [|c more IH]; intros i carried self k Hk; [reflexivity|].
  assert (Hmore : forall chatlog, S i <= k ->
            nth_error more (k - S i) = Some chatlog -> agentless chatlog = true).
  { intros chatlog Hle Hn. apply Hk; [lia|].
    replace (k - i) with (S (k - S i)) by lia. exact Hn. }
  cbn [acquire_loop].
  change (String.eqb (apply_agent_regex c) "No agent") with (agentless c).
  destruct (agentless c) eqn:Eag.
  - unfold bind, log_agent_error.
    match goal with
    | |- context [acquire_loop (S i) more carried ?st] =>
        pose proof (IH (S i) carried st k Hmore) as H;
        destruct (acquire_loop (S i) more carried st); exact H
    end.
  - destruct (build_dialogue (apply_agent_regex c) c carried) as [[d0 c0]|e];
      [|reflexivity].
    unfold bind, store_dialogue.
    assert (Hne : k <> i).
    { intros ->. specialize (Hk c (Nat.le_refl i)).
      rewrite Nat.sub_diag in Hk. simpl in Hk.
      rewrite Hk in Eag by reflexivity. discriminate. }
    match goal with
    | |- context [acquire_loop (S i) more c0 ?st] =>
        pose proof (IH (S i) c0 st k Hmore) as H;
        destruct (acquire_loop (S i) more c0 st); simpl in H |- *;
        rewrite H; now apply dict_get_set_other
    end.
Qed.

(** When the loop returns, the dialogue under the index of a transcript
    with an agent is the one built from that transcript. *)
Lemma acquire_loop_get_stored (logs : list string) :
  forall i carried self self' k chatlog,
    acquire_loop i logs carried self = Return tt self' ->
    i <= k -> nth_error logs (k - i) = Some chatlog ->
    agentless chatlog = false ->
    exists d c c',
      Dict.get Nat.eqb k (chat_dict self') = Some d
      /\ build_dialogue (apply_agent_regex chatlog) chatlog c = Ok (d, c').
Proof.
  induction logs as [|c0 more IH]; intros i carried self self' k chatlog H Hle Hn Hag.
  - destruct (k - i); discriminate.
  - cbn [acquire_loop] in H.
    change (String.eqb (apply_agent_regex c0) "No agent") with (agentless c0) in H.
    destruct (Nat.eq_dec k i) as [->|Hne].
    + rewrite Nat.sub_diag in Hn. simpl in Hn. inversion Hn; subst c0.
      rewrite Hag in H.
      destruct (build_dialogue (apply_agent_regex chatlog) chatlog carried)
        as [[d0 cr]|e] eqn:Eb; [|discriminate].
      unfold bind, store_dialogue in H.
      exists d0, carried, cr. split; [|exact Eb].
      match type of H with
      | acquire_loop _ _ _ ?st = _ =>
          pose proof (acquire_loop_get_untouched more (S i) cr st i) as Hget
      end.
      rewrite H in Hget. simpl in Hget. rewrite Hget by (intros; lia).
      apply dict_get_set_same.
    + assert (Hn' : nth_error more (k - S i) = Some chatlog).
      { replace (k - i) with (S (k - S i)) in Hn by lia. exact Hn. }
      destruct (agentless c0).
      * unfold bind, log_agent_error in H.
        eapply IH; [exact H | lia | exact Hn' | exact Hag].
      * destruct (build_dialogue (apply_agent_regex c0) c0 carried)
          as [[d0 cr]|e]; [|discriminate].
        unfold bind, store_dialogue in H.
        eapply IH; [exact H | lia | exact Hn' | exact Hag].
Qed.

(** X18: whatever the object holds and however the call ends,
    [return_chatlogs] leaves the transcripts as they are, only appends to
    [agent_error_logs] and [client_error_logs], keeps the keys [chat_dict]
    had, in their order, with new keys after them, and leaves the dialogue
    under every key that is not the index of a transcript with an agent as
    it was.  The dialogue under the index of a transcript with an agent is
    overwritten: when the call returns, it is the one just built from that
    transcript. *)
Theorem X18_what_a_call_changes (self : ProcessChatlogs) :
  chatlogs (final_state (return_chatlogs self)) = chatlogs self
  /\ (exists more,
        agent_error_logs (final_state (return_chatlogs self))
        = agent_error_logs self ++ more)
  /\ (exists more,
        client_error_logs (final_state (return_chatlogs self))
        = client_error_logs self ++ more)
  /\ (exists more,
        Dict.keys (chat_dict (final_state (return_chatlogs self)))
        = Dict.keys (chat_dict self) ++ more)
  /\ (forall k,
        (forall chatlog, nth_error (chatlogs self) k = Some chatlog ->
                         agentless chatlog = true) ->
        Dict.get Nat.eqb k (chat_dict (final_state (return_chatlogs self)))
        = Dict.get Nat.eqb k (chat_dict self))
  /\ (forall corpus self' k chatlog,
        return_chatlogs self = Return corpus self' ->
        nth_error (chatlogs self) k = Some chatlog ->
        agentless chatlog = false ->
        exists d carried carried',
          Dict.get Nat.eqb k (chat_dict self') = Some d
          /\ build_dialogue (apply_agent_regex chatlog) chatlog carried
             = Ok (d, carried')).
Proof.
  assert (Hfirst :
    chatlogs (final_state (return_chatlogs self)) = chatlogs self
    /\ (exists more,
          agent_error_logs (final_state (return_chatlogs self))
          = agent_error_logs self ++ more)
    /\ (exists more,
          client_error_logs (final_state (return_chatlogs self))
          = client_error_logs self ++ more)
    /\ (exists more,
          Dict.keys (chat_dict (final_state (return_chatlogs self)))
          = Dict.keys (chat_dict self) ++ more)).
  { rewrite return_chatlogs_unfold.
    pose proof (acquire_loop_grows (chatlogs self) 0 None self)
      as (H1 & H2 & (m3 & H3) & (m4 & H4) & _).
    destruct (acquire_loop 0 (chatlogs self) None self) as [[] s1|e s1];
      simpl in H1, H2, H3, H4.
    - pose proof (client_check_loop_grows (chat_dict s1) s1)
        as (G1 & G2 & (m & G3)).
      pose proof (client_check_loop_chat_dict (chat_dict s1) s1) as G4.
      destruct (client_check_loop (chat_dict s1) s1) as [[] s2|e s2];
        simpl in *;
        (split; [congruence|]; split; [exists m3; congruence|];
         split; [exists m; congruence|]; exists m4; congruence).
    - simpl. split; [exact H1|]. split; [now exists m3|].
      split; [exists []; now rewrite app_nil_r | now exists m4]. }
  destruct Hfirst as (F1 & F2 & F3 & F4).
  split; [exact F1|]. split; [exact F2|]. split; [exact F3|].
  split; [exact F4|]. split.
  - intros k Hk. rewrite return_chatlogs_chat_dict.
    apply acquire_loop_get_untouched.
    intros chatlog _ Hn. rewrite Nat.sub_0_r in Hn. now apply Hk.
  - intros corpus self' k chatlog Hrun Hn Hag.
    rewrite return_chatlogs_unfold in Hrun.
    destruct (acquire_loop 0 (chatlogs self) None self) as [[] s1|e s1] eqn:E1;
      [|discriminate].
    destruct (client_check_loop (chat_dict s1) s1) as [[] s2|e s2] eqn:E2;
      [|discriminate].
    inversion Hrun; subst corpus self'.
    apply client_check_loop_logged in E2 as (_ & Hd & _). rewrite Hd.
    eapply acquire_loop_get_stored; [exact E1 | lia | | exact Hag].
    now rewrite Nat.sub_0_r.
Qed.
